(** * Paraxial ray tracing: the optical-system engine

    A shallow embedding of [paraxial_raytracing/raytracing.py] (class
    [OpticalSystem]) and of the refraction branch of the configuration
    wizard in [paraxial_raytracing/gui.py].

    Numbers.  Python floats and NumPy float64 values are idealised as real
    numbers [R]: arithmetic is exact, there is no rounding and no infinity.
    The one place where the program divides zero by zero, the interpolation
    of [find_image_position] on two samples at the same position, yields
    nan: the heights, spreads and means of that function are of type
    [npfloat], a real or nan.  [np.tan] and [np.pi] are [tan] and [PI] of the
    Standard Library.

    Effects.  A method of [OpticalSystem] is a computation in a small state
    and exception monad over the object's fields; [self.x = v] is [modify],
    reading [self.x] is [gets], [raise] is [raise].  The [while True] loop of
    [find_marginal_rays] is run with fuel, and running out of fuel is an
    outcome of its own, distinct from every value the method can return. *)

From Stdlib Require Import String.
From Stdlib Require Import Reals Lra Lia List Bool Arith ZArith Sorting.Sorted Permutation.
Import ListNotations.
Local Open Scope R_scope.

(** ** Comparisons on floats, as booleans *)

Module Num.

Definition Rltb (x y : R) : bool := if Rlt_dec x y then true else false.
Definition Rleb (x y : R) : bool := if Rle_dec x y then true else false.
Definition Reqb (x y : R) : bool := if Req_dec_T x y then true else false.

Lemma Rltb_true x y : Rltb x y = true <-> x < y.
Proof. unfold Rltb; destruct (Rlt_dec x y); split; intros; try discriminate; tauto. Qed.

Lemma Rltb_false x y : Rltb x y = false <-> y <= x.
Proof.
  unfold Rltb; destruct (Rlt_dec x y); split; intros; try discriminate; try lra; auto.
Qed.

Lemma Rleb_true x y : Rleb x y = true <-> x <= y.
Proof. unfold Rleb; destruct (Rle_dec x y); split; intros; try discriminate; tauto. Qed.

Lemma Rleb_false x y : Rleb x y = false <-> y < x.
Proof.
  unfold Rleb; destruct (Rle_dec x y); split; intros; try discriminate; try lra; auto.
Qed.

Lemma Reqb_true x y : Reqb x y = true <-> x = y.
Proof. unfold Reqb; destruct (Req_dec_T x y); split; intros; try discriminate; tauto. Qed.

Lemma Reqb_false x y : Reqb x y = false <-> x <> y.
Proof. unfold Reqb; destruct (Req_dec_T x y); split; intros; try discriminate; tauto. Qed.

End Num.
Import Num.

(** [rsolve] closes linear goals over [R] that mention [Rabs]. *)
Ltac rsolve :=
  unfold Rabs in *; repeat (destruct (Rcase_abs _)); lra.

(** [rbool] evaluates the boolean comparisons of a goal whose operands are
    concrete enough for [rsolve]. *)
Ltac rbool :=
  repeat match goal with
    | |- context [Rltb ?a ?b] =>
        first [ replace (Rltb a b) with true by (symmetry; apply Rltb_true; rsolve)
              | replace (Rltb a b) with false by (symmetry; apply Rltb_false; rsolve) ]
    | |- context [Rleb ?a ?b] =>
        first [ replace (Rleb a b) with true by (symmetry; apply Rleb_true; rsolve)
              | replace (Rleb a b) with false by (symmetry; apply Rleb_false; rsolve) ]
    | |- context [Reqb ?a ?b] =>
        first [ replace (Reqb a b) with true by (symmetry; apply Reqb_true; rsolve)
              | replace (Reqb a b) with false by (symmetry; apply Reqb_false; rsolve) ]
    end.

(** [req] proves an equality of tuples or lists of reals, component by
    component. *)
Ltac req := repeat first [ reflexivity | lra | f_equal ].

(** [case_if] splits on the condition of the first conditional of the goal. *)
Ltac case_if :=
  match goal with
  | |- context [if ?b then _ else _] => destruct b eqn:?
  end.

(** ** The state and exception monad of a Python object *)

Inductive exn : Type :=
| ValueError (msg : string)
| ZeroDivisionError
| IndexError.

Inductive outcome (A : Type) : Type :=
| Ok (a : A)
| Raise (e : exn)
| OutOfFuel.
Arguments Ok {A} a.
Arguments Raise {A} e.
Arguments OutOfFuel {A}.

Definition M (S A : Type) : Type := S -> outcome A * S.

Definition ret {S A} (a : A) : M S A := fun s => (Ok a, s).

Definition bind {S A B} (c : M S A) (k : A -> M S B) : M S B :=
  fun s =>
    match c s with
    | (Ok a, s') => k a s'
    | (Raise e, s') => (Raise e, s')
    | (OutOfFuel, s') => (OutOfFuel, s')
    end.

Definition gets {S A} (f : S -> A) : M S A := fun s => (Ok (f s), s).
Definition modify {S} (f : S -> S) : M S unit := fun s => (Ok tt, f s).
Definition raise {S A} (e : exn) : M S A := fun s => (Raise e, s).
Definition out_of_fuel {S A} : M S A := fun s => (OutOfFuel, s).

(** [try: c except h]: the handler runs in the state the exception left. *)
Definition try_except {S A} (c : M S A) (h : exn -> M S A) : M S A :=
  fun s =>
    match c s with
    | (Raise e, s') => h e s'
    | r => r
    end.

Declare Scope py_scope.
Delimit Scope py_scope with py.
Notation "x <- c ;; k" := (bind c (fun x => k))
  (at level 61, c at next level, right associativity) : py_scope.
Notation "c ;;; k" := (bind c (fun _ => k))
  (at level 61, right associativity) : py_scope.
Local Open Scope py_scope.

(** ** Data model *)

Inductive op_kind : Type := transfer | refraction.
Inductive elem_kind : Type := lens | iris.

(** A ray vector [[y, w]]: height first, angle (slope) second. *)
Definition vec2 : Type := R * R.
(** A 2x2 array [[[a, b], [c, d]]]. *)
Definition mat2 : Type := (R * R) * (R * R).

(** [matrix @ ray]. *)
Definition matvec (m : mat2) (v : vec2) : vec2 :=
  let '((a, b), (c, d)) := m in
  let '(y, w) := v in
  (a * y + b * w, c * y + d * w).

(** An entry of [self.matrices]: [(kind, matrix, distance)]. *)
Definition matrix_entry : Type := op_kind * mat2 * R.
(** An entry of [self.optical_elements]: [(kind, position, diameter)]. *)
Definition element : Type := elem_kind * R * R.

Definition elem_pos (e : element) : R := snd (fst e).
Definition entry_distance (m : matrix_entry) : R := snd m.

(** A ray path: [(z, y)] samples. *)
Definition sample : Type := R * R.
Definition ray_path : Type := list sample.

Record OpticalSystem : Type := mkSystem {
  matrices : list matrix_entry;
  optical_elements : list element;
  object_height : option R;
  STOP_optic : option element
}.

(** [OpticalSystem.__init__]. *)
Definition init : OpticalSystem := mkSystem [] [] None None.

Definition with_matrices (f : list matrix_entry -> list matrix_entry) (s : OpticalSystem) :=
  mkSystem (f (matrices s)) (optical_elements s) (object_height s) (STOP_optic s).
Definition with_optical_elements (f : list element -> list element) (s : OpticalSystem) :=
  mkSystem (matrices s) (f (optical_elements s)) (object_height s) (STOP_optic s).
Definition with_object_height (h : option R) (s : OpticalSystem) :=
  mkSystem (matrices s) (optical_elements s) h (STOP_optic s).
Definition with_STOP_optic (e : option element) (s : OpticalSystem) :=
  mkSystem (matrices s) (optical_elements s) (object_height s) e.

Definition Py : Type -> Type := M OpticalSystem.

(** ** Mutation operations *)

Definition set_object_height (height : R) : Py unit :=
  modify (with_object_height (Some height)).

Definition transfer_matrix (distance : R) : mat2 := ((1, distance), (0, 1)).
Definition refraction_matrix (power : R) : mat2 := ((1, 0), (- power, 1)).

Definition add_transfer (distance : R) : Py unit :=
  modify (with_matrices (fun ms => ms ++ [(transfer, transfer_matrix distance, distance)])).

Definition add_refraction (position power diameter : R) : Py unit :=
  modify (with_matrices (fun ms => ms ++ [(refraction, refraction_matrix power, 0)])) ;;;
  modify (with_optical_elements (fun es => es ++ [(lens, position, diameter)])).

Definition add_iris (position diameter : R) : Py unit :=
  modify (with_optical_elements (fun es => es ++ [(iris, position, diameter)])).

(** ** [trace_ray] *)

(** The test of the inner loop:
    [abs(pos - current_z) < 1e-10 and abs(y) > diameter/2]. *)
Definition blocks (e : element) (current_z y : R) : bool :=
  let '(_, pos, diameter) := e in
  Rltb (Rabs (pos - current_z)) 1e-10 && Rltb (diameter / 2) (Rabs y).

(** The inner [for] over [self.optical_elements]: [true] when it reaches
    [return path]. *)
Fixpoint blocked (els : list element) (current_z y : R) : bool :=
  match els with
  | [] => false
  | e :: els' => if blocks e current_z y then true else blocked els' current_z y
  end.

(** The local variables of [trace_ray]. *)
Record trace_state : Type := mkTrace {
  ray : vec2;
  current_z : R;
  path : ray_path
}.

(** One iteration of the outer loop, up to [path.append]. *)
Definition apply_op (m : matrix_entry) (st : trace_state) : trace_state :=
  let '(_, matrix, distance) := m in
  let ray' := matvec matrix (ray st) in
  let z' := current_z st + distance in
  mkTrace ray' z' (path st ++ [(z', fst ray')]).

(** The outer [for] over [self.matrices]; the result is the state of the
    locals when the function returns. *)
Fixpoint trace_loop (els : list element) (ms : list matrix_entry) (st : trace_state)
  : trace_state :=
  match ms with
  | [] => st
  | m :: ms' =>
      let st' := apply_op m st in
      if blocked els (current_z st') (fst (ray st')) then st'
      else trace_loop els ms' st'
  end.

Definition trace_init (w0 y0 : R) : trace_state := mkTrace (y0, w0) 0 [(0, y0)].

(** The locals of [trace_ray(w0, y0)] at its [return]. *)
Definition trace_final (s : OpticalSystem) (w0 y0 : R) : trace_state :=
  trace_loop (optical_elements s) (matrices s) (trace_init w0 y0).

Definition trace_ray (w0 y0 : R) : Py ray_path :=
  ms <- gets matrices ;;
  els <- gets optical_elements ;;
  ret (path (trace_loop els ms (trace_init w0 y0))).

(** The value [trace_ray] returns, as a function of the system. *)
Definition trace_path (s : OpticalSystem) (w0 y0 : R) : ray_path :=
  path (trace_final s w0 y0).

(** [path[-1][0]] of a path. *)
Definition final_z (p : ray_path) : R := fst (last p (0, 0)).

(** ** [find_marginal_rays] *)

Definition deg_to_rad (deg : R) : R := deg * PI / 180.
Definition angle_step : R := 0.01.

(** [sum(distance for _, _, distance in self.matrices if distance > 0)]. *)
Definition total_distance_of (ms : list matrix_entry) : R :=
  fold_left Rplus
    (map entry_distance (filter (fun m => Rltb 0 (entry_distance m)) ms)) 0.

(** The [for ... break] that looks for the element at [final_z]: the first
    element, in registry order, within [1e-10] of it. *)
Fixpoint find_stop (els : list element) (fz : R) : option element :=
  match els with
  | [] => None
  | (elem_type, pos, diameter) :: els' =>
      if Rltb (Rabs (pos - fz)) 1e-10 then Some (elem_type, pos, diameter)
      else find_stop els' fz
  end.

Definition record_stop (fz : R) : Py unit :=
  els <- gets optical_elements ;;
  match find_stop els fz with
  | Some e => modify (with_STOP_optic (Some e))
  | None => ret tt
  end.

(** The locals of [find_marginal_rays] that live across iterations. *)
Record search_state : Type := mkSearch {
  current_angle : R;
  last_successful_path : option ray_path
}.

Inductive loop_ctl (St A : Type) : Type :=
| Continue (st : St)
| Return (a : A).
Arguments Continue {St A} st.
Arguments Return {St A} a.

Definition marginal_result : Type := list (R * ray_path).

(** The body of [while True]. *)
Definition marginal_body (st : search_state) : Py (loop_ctl search_state marginal_result) :=
  p <- trace_ray (tan (deg_to_rad (current_angle st))) 0 ;;
  ms <- gets matrices ;;
  let total_distance := total_distance_of ms in
  all_elements_passed <-
    (if (length p <? 2)%nat then ret false
     else
       let fz := final_z p in
       if Rltb 1e-10 (Rabs (fz - total_distance))
       then record_stop fz ;;; ret false
       else ret true) ;;
  if all_elements_passed : bool
  then ret (Continue (mkSearch (current_angle st + angle_step) (Some p)))
  else
    match last_successful_path st with
    | Some lp => ret (Return [(current_angle st - angle_step, lp)])
    | None => ret (Return [])
    end.

Fixpoint marginal_loop (fuel : nat) (st : search_state) : Py marginal_result :=
  match fuel with
  | O => out_of_fuel
  | S fuel' =>
      r <- marginal_body st ;;
      match r with
      | Continue st' => marginal_loop fuel' st'
      | Return a => ret a
      end
  end.

(** [find_marginal_rays()], with [fuel] iterations of the loop allowed. *)
Definition find_marginal_rays (fuel : nat) : Py marginal_result :=
  marginal_loop fuel (mkSearch angle_step None).

(** ** [find_image_position] *)

(** A float64 as the interpolation leaves it: a number, or nan. *)
Inductive npfloat : Type :=
| Fin (x : R)
| NaN.

(** Arithmetic with a nan is nan; a comparison with a nan is false. *)
Definition fadd (a b : npfloat) : npfloat :=
  match a, b with Fin x, Fin y => Fin (x + y) | _, _ => NaN end.
Definition fsub (a b : npfloat) : npfloat :=
  match a, b with Fin x, Fin y => Fin (x - y) | _, _ => NaN end.
Definition fabs (a : npfloat) : npfloat :=
  match a with Fin x => Fin (Rabs x) | NaN => NaN end.
Definition flt (a b : npfloat) : bool :=
  match a, b with Fin x, Fin y => Rltb x y | _, _ => false end.
Definition feq (a b : npfloat) : bool :=
  match a, b with Fin x, Fin y => Reqb x y | _, _ => false end.

(** A sample [(spread, z, mean_height)]. *)
Definition spread_sample : Type := npfloat * R * npfloat.
Definition sample_spread (c : spread_sample) : npfloat := fst (fst c).
Definition sample_z (c : spread_sample) : R := snd (fst c).
Definition sample_mean (c : spread_sample) : npfloat := snd c.

(** [np.linspace(start, stop, num)]: [arange(num) * step + start] with
    [step = (stop - start) / (num - 1)]. *)
Definition linspace (start stop : R) (num : nat) : list R :=
  map (fun i => INR i * ((stop - start) / INR (num - 1)) + start) (seq 0 num).

(** The innermost [for i in range(len(path) - 1)] with its [break].  Under
    the test [z1 <= z <= z2] a zero divisor [z2 - z1] comes with a zero
    dividend [z - z1], and [0 / 0] on float64 is nan, which the product and
    the sum hand on. *)
Fixpoint interpolate (p : ray_path) (z : R) : option npfloat :=
  match p with
  | (z1, y1) :: (((z2, y2) :: _) as rest) =>
      if Rleb z1 z && Rleb z z2
      then Some (if Reqb (z2 - z1) 0 then NaN
                 else Fin (let t := (z - z1) / (z2 - z1) in y1 + t * (y2 - y1)))
      else interpolate rest z
  | _ => None
  end.

Definition heights_at (ray_paths : list ray_path) (z : R) : list npfloat :=
  flat_map (fun p => match interpolate p z with Some h => [h] | None => [] end) ray_paths.

(** [max] and [min] of a non-empty list keep the first item until a later
    one compares greater, or less: a nan stays when it comes first and is
    passed over when it comes later. *)
Definition py_max (x : npfloat) (xs : list npfloat) : npfloat :=
  fold_left (fun maxval item => if flt maxval item then item else maxval) xs x.
Definition py_min (x : npfloat) (xs : list npfloat) : npfloat :=
  fold_left (fun minval item => if flt item minval then item else minval) xs x.

(** [np.mean]: the sum over the count; nan when one of the items is. *)
Definition np_mean (l : list npfloat) : npfloat :=
  match fold_left fadd l (Fin 0) with
  | Fin total => Fin (total / INR (length l))
  | NaN => NaN
  end.

Definition spread_at (ray_paths : list ray_path) (z : R) : list spread_sample :=
  match heights_at ray_paths z with
  | [] => []
  | h :: hs => [(fsub (py_max h hs) (py_min h hs), z, np_mean (h :: hs))]
  end.

Definition collect_spreads (ray_paths : list ray_path) (z_positions : list R)
  : list spread_sample :=
  flat_map (spread_at ray_paths) z_positions.

(** [<] on tuples: the first pair of components that are not [==] decides,
    by its own [<].  A nan is [==] to nothing and [<] nothing. *)
Definition tuple_lt (a b : spread_sample) : bool :=
  let '(s1, z1, m1) := a in
  let '(s2, z2, m2) := b in
  if feq s1 s2 then (if Reqb z1 z2 then flt m1 m2 else Rltb z1 z2)
  else flt s1 s2.

(** Stable insertion from the left, by [<]. *)
Fixpoint insert_sorted (x : spread_sample) (l : list spread_sample) : list spread_sample :=
  match l with
  | [] => [x]
  | y :: l' => if tuple_lt x y then x :: y :: l' else y :: insert_sorted x l'
  end.

Definition py_sort (l : list spread_sample) : list spread_sample :=
  fold_left (fun acc x => insert_sorted x acc) l [].

Definition finite_sample (c : spread_sample) : Prop :=
  exists spread mean_height,
    sample_spread c = Fin spread /\ sample_mean c = Fin mean_height.

(** [spreads.sort()].  The routine is the interpreter's, not the program's,
    and the search takes it as a parameter [list_sort].  Two facts about it
    are used: the result is a rearrangement of the list; and on samples
    without nan, where [<] on tuples is a strict total order, it is the
    ascending rearrangement, the one [py_sort] computes.  Where a nan sample
    ends up is left open. *)
Definition python_sort (list_sort : list spread_sample -> list spread_sample) : Prop :=
  (forall l, Permutation (list_sort l) l) /\
  (forall l, Forall finite_sample l -> list_sort l = py_sort l).

(** The loop [for spread, z, height in spreads[1:]], with its [return]. *)
Fixpoint select_second (distinct_points rest : list spread_sample)
  : option R * option npfloat :=
  match rest with
  | [] => (None, None)
  | (spread, z, height) :: rest' =>
      if Rltb 1.0 (Rabs (z - sample_z (last distinct_points (NaN, 0, NaN))))
      then
        let distinct_points' := distinct_points ++ [(spread, z, height)] in
        if (2 <=? length distinct_points')%nat
        then (Some (sample_z (nth 1 distinct_points' (NaN, 0, NaN))),
              Some (sample_mean (nth 1 distinct_points' (NaN, 0, NaN))))
        else select_second distinct_points' rest'
      else select_second distinct_points rest'
  end.

(** The first loop of [find_convergence]: trace each ray, keep the paths of
    more than one sample. *)
Fixpoint collect_paths (rays_from_point : list (R * R)) (ray_paths : list ray_path)
  : Py (list ray_path) :=
  match rays_from_point with
  | [] => ret ray_paths
  | (w0, y0) :: rays' =>
      p <- trace_ray w0 y0 ;;
      if (1 <? length p)%nat then collect_paths rays' (ray_paths ++ [p])
      else collect_paths rays' ray_paths
  end.

Definition find_convergence (list_sort : list spread_sample -> list spread_sample)
           (rays_from_point : list (R * R)) : Py (option R * option npfloat) :=
  ray_paths <- collect_paths rays_from_point [] ;;
  if (length ray_paths <? 2)%nat then ret (None, None)
  else
    ms <- gets matrices ;;
    let total_distance := total_distance_of ms in
    let z_positions := linspace 0 total_distance 1000 in
    let spreads := collect_spreads ray_paths z_positions in
    match spreads with
    | [] => ret (None, None)
    | _ :: _ =>
        let spreads := list_sort spreads in
        if (2 <=? length spreads)%nat
        then ret (select_second (firstn 1 spreads) (skipn 1 spreads))
        else ret (None, None)
    end.

Definition image_result : Type :=
  option R * option npfloat * option R * option npfloat.

Definition find_image_position (list_sort : list spread_sample -> list spread_sample)
           (rays : list (R * R)) : Py image_result :=
  oh <- gets object_height ;;
  match oh with
  | None => raise (ValueError "Object height not set")
  | Some H =>
      let toe_rays := filter (fun r => Rltb (Rabs (snd r)) 1e-10) rays in
      let head_rays := filter (fun r => Rltb (Rabs (snd r - H)) 1e-10) rays in
      toe <- find_convergence list_sort toe_rays ;;
      head <- find_convergence list_sort head_rays ;;
      ret (fst toe, snd toe, fst head, snd head)
  end.

(** ** Building a system: sequences of mutation calls *)

Inductive mutation : Type :=
| SetObjectHeight (height : R)
| AddTransfer (distance : R)
| AddRefraction (position power diameter : R)
| AddIris (position diameter : R).

Definition apply_mutation (c : mutation) : Py unit :=
  match c with
  | SetObjectHeight h => set_object_height h
  | AddTransfer d => add_transfer d
  | AddRefraction pos P d => add_refraction pos P d
  | AddIris pos d => add_iris pos d
  end.

Fixpoint apply_mutations (calls : list mutation) : Py unit :=
  match calls with
  | [] => ret tt
  | c :: calls' => apply_mutation c ;;; apply_mutations calls'
  end.

(** The system a fresh [OpticalSystem()] becomes after [calls]. *)
Definition built (calls : list mutation) : OpticalSystem :=
  snd (apply_mutations calls init).

Definition is_set_object_height (c : mutation) : bool :=
  match c with SetObjectHeight _ => true | _ => false end.

(** ** The configuration wizard: [add_condition] of [gui.py] *)

(** The value of the condition-type combobox; anything that is neither
    "Transfer" nor "Iris" takes the refraction branch. *)
Inductive condition_type : Type := Transfer | Iris | Refraction.

(** The text of an entry field, as [float()] reads it. *)
Inductive entry_text : Type :=
| Number (x : R)
| NotANumber.

(** The labels appended to [self.conditions]. *)
Inductive condition : Type :=
| TransferLabel (distance : R)
| IrisLabel (pos diameter : R)
| LensLabel (pos f diameter : R).

Record OpticalSystemGUI : Type := mkGUI {
  system : OpticalSystem;
  gui_object_height : R;
  conditions : list condition;
  current_position : R
}.

Definition Gui : Type -> Type := M OpticalSystemGUI.

(** What the user sees when [add_condition] is over. *)
Inductive ui_event : Type :=
| Refreshed
| ErrorBox (title message : string).

(** A method call on [self.system]. *)
Definition on_system {A} (c : Py A) : Gui A :=
  fun g =>
    let '(r, s') := c (system g) in
    (r, mkGUI s' (gui_object_height g) (conditions g) (current_position g)).

Definition float (t : entry_text) : Gui R :=
  match t with
  | Number x => ret x
  | NotANumber => raise (ValueError "could not convert string to float")
  end.

(** [param_vars[i].get()]. *)
Definition param (param_vars : list entry_text) (i : nat) : Gui entry_text :=
  match nth_error param_vars i with
  | Some t => ret t
  | None => raise IndexError
  end.

(** [a / b] on Python floats. *)
Definition py_div (a b : R) : Gui R :=
  if Reqb b 0 then raise ZeroDivisionError else ret (a / b).

Definition append_condition (c : condition) : Gui unit :=
  modify (fun g => mkGUI (system g) (gui_object_height g) (conditions g ++ [c])
                         (current_position g)).

Definition advance_position (distance : R) : Gui unit :=
  modify (fun g => mkGUI (system g) (gui_object_height g) (conditions g)
                         (current_position g + distance)).

(** The [try] block. *)
Definition add_condition_try (ctype : condition_type) (param_vars : list entry_text)
  : Gui ui_event :=
  match ctype with
  | Transfer =>
      t <- param param_vars 0 ;;
      distance <- float t ;;
      on_system (add_transfer distance) ;;;
      advance_position distance ;;;
      append_condition (TransferLabel distance)
  | Iris =>
      t <- param param_vars 0 ;;
      diam <- float t ;;
      pos <- gets current_position ;;
      on_system (add_iris pos diam) ;;;
      append_condition (IrisLabel pos diam)
  | Refraction =>
      t0 <- param param_vars 0 ;;
      focal_length <- float t0 ;;
      t1 <- param param_vars 1 ;;
      diam <- float t1 ;;
      power <- py_div 1.0 focal_length ;;
      pos <- gets current_position ;;
      on_system (add_refraction pos power diam) ;;;
      append_condition (LensLabel pos focal_length diam)
  end ;;;
  ret Refreshed.

Definition add_condition (ctype : condition_type) (param_vars : list entry_text)
  : Gui ui_event :=
  try_except (add_condition_try ctype param_vars)
    (fun e =>
       match e with
       | ValueError _ => ret (ErrorBox "Error" "Please enter valid numbers")
       | ZeroDivisionError => ret (ErrorBox "Error" "Focal length cannot be zero")
       | IndexError => raise IndexError
       end).

(** ** Vocabulary of the claims *)

(** The [k]-th candidate angle of the marginal-ray search, in degrees. *)
Definition candidate (k : nat) : R := INR k * angle_step.

(** The path traced at the [k]-th candidate. *)
Definition candidate_path (s : OpticalSystem) (k : nat) : ray_path :=
  trace_path s (tan (deg_to_rad (candidate k))) 0.

Definition total_distance (s : OpticalSystem) : R := total_distance_of (matrices s).

(** The final axial position of a path equals the total transfer length
    within [1e-10]. *)
Definition reaches_end (s : OpticalSystem) (p : ray_path) : bool :=
  negb (Rltb 1e-10 (Rabs (final_z p - total_distance s))).

(** The classification of a traced path by the loop: [all_elements_passed]. *)
Definition path_passes (s : OpticalSystem) (p : ray_path) : bool :=
  negb (length p <? 2)%nat && reaches_end s p.

Definition passes (s : OpticalSystem) (k : nat) : bool :=
  path_passes s (candidate_path s k).

(** The system after the iteration that classifies [p] as failing. *)
Definition after_failure (s : OpticalSystem) (p : ray_path) : OpticalSystem :=
  if (length p <? 2)%nat then s
  else
    match find_stop (optical_elements s) (final_z p) with
    | Some e => with_STOP_optic (Some e) s
    | None => s
    end.

(** What the search returns when candidate [k] is the first to fail. *)
Definition result_at (s : OpticalSystem) (k : nat) : marginal_result :=
  match k with
  | 0%nat | 1%nat => []
  | S k' => [(candidate k', candidate_path s k')]
  end.

(** The multi-point paths of a group of rays, in order. *)
Definition multi_point_paths (s : OpticalSystem) (group : list (R * R)) : list ray_path :=
  filter (fun p => (1 <? length p)%nat)
         (map (fun r => trace_path s (fst r) (snd r)) group).

(** The samples of a group, as collected and as sorted. *)
Definition samples_of (s : OpticalSystem) (group : list (R * R)) : list spread_sample :=
  collect_spreads (multi_point_paths s group) (linspace 0 (total_distance s) 1000).

(** An empty list of samples is returned on before the sort. *)
Definition sorted_samples (list_sort : list spread_sample -> list spread_sample)
           (s : OpticalSystem) (group : list (R * R)) : list spread_sample :=
  match samples_of s group with
  | [] => []
  | c :: l => list_sort (c :: l)
  end.

(** The second distinct candidate, in the words of the specification: the
    first candidate is the minimum-spread sample, the second is the first
    later sample whose z is more than 1 cm from it. *)
Definition second_distinct_candidate (sorted : list spread_sample)
  : option R * option npfloat :=
  match sorted with
  | [] => (None, None)
  | c1 :: rest =>
      match find (fun c => Rltb 1 (Rabs (sample_z c - sample_z c1))) rest with
      | Some c2 => (Some (sample_z c2), Some (sample_mean c2))
      | None => (None, None)
      end
  end.

Definition base_rays (rays : list (R * R)) : list (R * R) :=
  filter (fun r => Rltb (Rabs (snd r)) 1e-10) rays.
Definition tip_rays (H : R) (rays : list (R * R)) : list (R * R) :=
  filter (fun r => Rltb (Rabs (snd r - H)) 1e-10) rays.

(** The convergence point of a group: absent when fewer than two rays of the
    group trace to multi-point paths, the second distinct candidate of the
    sorted samples otherwise. *)
Definition convergence (list_sort : list spread_sample -> list spread_sample)
           (s : OpticalSystem) (group : list (R * R)) : option R * option npfloat :=
  if (length (multi_point_paths s group) <? 2)%nat then (None, None)
  else second_distinct_candidate (sorted_samples list_sort s group).

(** [<=] on floats, false when either side is nan. *)
Definition fle (a b : npfloat) : Prop :=
  match a, b with Fin x, Fin y => x <= y | _, _ => False end.

(** Ascending by spread, and the order [list.sort] works with. *)
Definition spread_le (a b : spread_sample) : Prop :=
  fle (sample_spread a) (sample_spread b).
Definition tuple_le (a b : spread_sample) : Prop := tuple_lt b a = false.

(** A system of transfers [ds] over a given element registry. *)
Definition transfers (ds : list R) (els : list element) (oh : option R)
           (stop : option element) : OpticalSystem :=
  mkSystem (map (fun d => (transfer, transfer_matrix d, d)) ds) els oh stop.

(** The last successful path after [n] passing iterations from candidate
    [k]. *)
Definition last_after (s : OpticalSystem) (k n : nat) (lp : option ray_path)
  : option ray_path :=
  match n with
  | O => lp
  | S n' => Some (candidate_path s (k + n'))
  end.

(** *** Two small systems *)

(** One centimetre of free space, an iris of diameter 2 cm, one more
    centimetre: a ray from the axis gets through when its slope is at most 1
    in absolute value. *)
Definition iris_system : OpticalSystem :=
  built [AddTransfer 1; AddIris 1 2; AddTransfer 1].

(** One centimetre of free space and no element. *)
Definition free_space : OpticalSystem := built [AddTransfer 1].


(** ** Vocabulary of the further properties *)

(** The axial positions after each op of a cascade entered at [z]. *)
Fixpoint positions (z : R) (ds : list R) : list R :=
  match ds with
  | [] => []
  | d :: ds' => (z + d) :: positions (z + d) ds'
  end.

Definition distances (s : OpticalSystem) : list R := map entry_distance (matrices s).

Definition sum_list (l : list R) : R := fold_right Rplus 0 l.

(** A path with every height multiplied by [c]; [mirror] is the reflection
    in the optical axis. *)
Definition scale_path (c : R) (p : ray_path) : ray_path :=
  map (fun q => (fst q, c * snd q)) p.
Definition mirror (p : ray_path) : ray_path :=
  map (fun q => (fst q, - snd q)) p.

(** The locals of [trace_ray] for the ray [(c * y, c * w)], given those for
    the ray [(y, w)]. *)
Definition scale_state (c : R) (st : trace_state) : trace_state :=
  mkTrace (c * fst (ray st), c * snd (ray st)) (current_z st) (scale_path c (path st)).

(** The same ops with an empty element registry. *)
Definition without_elements (s : OpticalSystem) : OpticalSystem :=
  with_optical_elements (fun _ => []) s.

(** The shapes [add_transfer] and [add_refraction] give to an op. *)
Definition built_entry (m : matrix_entry) : Prop :=
  (exists d, m = (transfer, transfer_matrix d, d)) \/
  (exists P, m = (refraction, refraction_matrix P, 0)).

Definition is_refraction (m : matrix_entry) : bool :=
  match fst (fst m) with refraction => true | transfer => false end.
Definition is_lens (e : element) : bool :=
  match fst (fst e) with lens => true | iris => false end.

(** In the words of the specification: [h] is the height of the path at
    [z], the linear interpolation between the first two consecutive samples
    that bracket [z], which stand at different positions. *)
Definition on_path (p : ray_path) (z h : R) : Prop :=
  exists (i : nat) (z1 y1 z2 y2 : R),
    nth_error p i = Some (z1, y1) /\
    nth_error p (S i) = Some (z2, y2) /\
    z1 <= z <= z2 /\
    z1 < z2 /\
    (forall j a b a' b',
        (j < i)%nat -> nth_error p j = Some (a, b) -> nth_error p (S j) = Some (a', b') ->
        ~ a <= z <= a') /\
    h = y1 + (z - z1) / (z2 - z1) * (y2 - y1).

(** In the words of the specification: [c] is the sample of the paths at its
    position.  The paths that reach the position each give one height, in
    order; the spread is the largest height minus the smallest, the mean
    height is their sum over their number. *)
Definition sample_of (ray_paths : list ray_path) (c : spread_sample) : Prop :=
  exists (heights : list R) (lo hi : R),
    Forall2 (fun p h => on_path p (sample_z c) h)
            (filter (fun p => Rleb (sample_z c) (final_z p)) ray_paths) heights /\
    In lo heights /\ In hi heights /\
    (forall h, In h heights -> lo <= h <= hi) /\
    sample_spread c = Fin (hi - lo) /\
    sample_mean c = Fin (sum_list heights / INR (length heights)).


(** ** The rest of the wizard *)

(** [OpticalSystemGUI.__init__], windows aside. *)
Definition wizard_init : OpticalSystemGUI := mkGUI init 0 [] 0.

(** [next_step] of [show_object_height_input]: the "Next" button of the
    first screen. *)
Definition next_step (height_var : entry_text) : Gui ui_event :=
  try_except
    (h <- float height_var ;;
     modify (fun g => mkGUI (system g) h (conditions g) (current_position g)) ;;;
     on_system (set_object_height h) ;;;
     ret Refreshed)
    (fun e =>
       match e with
       | ValueError _ => ret (ErrorBox "Error" "Please enter a valid number")
       | _ => raise e
       end).

(** A button press with the entries as they are at that moment. *)
Inductive wizard_event : Type :=
| NextStep (height_var : entry_text)
| AddCondition (ctype : condition_type) (param_vars : list entry_text).

Definition handle (ev : wizard_event) : Gui ui_event :=
  match ev with
  | NextStep t => next_step t
  | AddCondition ctype params => add_condition ctype params
  end.

(** The wizard after a sequence of button presses; a callback that raises
    leaves the state it reached and the main loop goes on. *)
Definition run_wizard (events : list wizard_event) (g : OpticalSystemGUI)
  : OpticalSystemGUI :=
  fold_left (fun g ev => snd (handle ev g)) events g.

(** The wizard's running position is the position [trace_ray] reaches at
    the end of the ops built so far, and every element was registered at the
    object plane or at a position where [trace_ray] takes a sample. *)
Definition wizard_consistent (g : OpticalSystemGUI) : Prop :=
  current_position g = fold_left Rplus (distances (system g)) 0 /\
  Forall (fun e => In (elem_pos e) (0 :: positions 0 (distances (system g))))
         (optical_elements (system g)).

(** What the entries must hold for [add_condition] to go through. *)
Definition acceptable (ctype : condition_type) (param_vars : list entry_text) : Prop :=
  match ctype with
  | Transfer | Iris => exists d, nth_error param_vars 0 = Some (Number d)
  | Refraction =>
      exists f d, nth_error param_vars 0 = Some (Number f) /\
                  nth_error param_vars 1 = Some (Number d) /\ f <> 0
  end.

(** ** [draw_arrow] and [main], up to the plot *)

Inductive path_code : Type := MOVETO | LINETO.

(** The vertices [draw_arrow] hands to [Path]. *)
Definition arrow_verts (position height : R) (inverted : bool) : list (R * R) :=
  let trunk_width := height / 16 in
  let head_width := trunk_width * 1.5 in
  let head_start := height * 0.9 in
  let height' := if inverted then - height else height in
  let head_start' := if inverted then - head_start else head_start in
  [ (position, 0);
    (position + trunk_width / 2, 0);
    (position + trunk_width / 2, head_start');
    (position + head_width, head_start');
    (position, height');
    (position - head_width, head_start');
    (position - trunk_width / 2, head_start');
    (position - trunk_width / 2, 0);
    (position, 0) ].

(** [[Path.MOVETO] + [Path.LINETO] * 8]. *)
Definition arrow_codes : list path_code := [MOVETO] ++ repeat LINETO 8.

(** The system [main] builds when it is given none. *)
Definition reference_system : OpticalSystem :=
  built [SetObjectHeight 4; AddTransfer 10; AddIris 10 6; AddTransfer 2;
         AddRefraction 12 (1 / 6) 6; AddTransfer 2; AddIris 14 4; AddTransfer 10].

(** [np.radians]. *)
Definition np_radians (angle : R) : R := angle * (PI / 180).

(** [[i * 5 for i in range(-10, 11)]]. *)
Definition main_angles : list R :=
  map (fun k => IZR ((Z.of_nat k - 10) * 5)) (seq 0 21).

Definition main_slopes : list R := map (fun angle => tan (np_radians angle)) main_angles.

(** The ray fan of [main] for a system whose object height is [H]. *)
Definition main_rays (H : R) : list (R * R) :=
  flat_map (fun slope => [(slope, H); (slope, 0)]) main_slopes.

Inductive main_exn : Type :=
| EngineError (e : exn)
| TypeError.

(** Where [main] stands when it reaches the plot, if it does. *)
Inductive main_outcome : Type :=
| MainSearching
| MainRaises (e : main_exn)
| MainPlots (s : OpticalSystem) (marginal_rays : marginal_result)
            (image : image_result) (image_position : R) (image_height : npfloat).

(** [main(system)] from its start to the two [print] calls; the marginal-ray
    loop is allowed [fuel] iterations.  With the object height unset the fan
    would hold [None] heights; [find_image_position] raises before it reads
    them, so the fan is taken empty there.  Formatting [None] with [:.2f], or
    subtracting from it, is a [TypeError]. *)
Definition main_head (list_sort : list spread_sample -> list spread_sample)
           (fuel : nat) (system : option OpticalSystem) : main_outcome :=
  let s0 := match system with Some s => s | None => reference_system end in
  let rays := match object_height s0 with Some H => main_rays H | None => [] end in
  match find_marginal_rays fuel s0 with
  | (OutOfFuel, _) => MainSearching
  | (Raise e, _) => MainRaises (EngineError e)
  | (Ok marginal_rays, s1) =>
      match find_image_position list_sort rays s1 with
      | (OutOfFuel, _) => MainSearching
      | (Raise e, _) => MainRaises (EngineError e)
      | (Ok (toe_x, toe_y, head_x, head_y), s2) =>
          match toe_x, head_y, toe_y with
          | Some x, Some hy, Some ty =>
              MainPlots s2 marginal_rays (toe_x, toe_y, head_x, head_y) x
                        (fabs (fsub hy ty))
          | _, _, _ => MainRaises TypeError
          end
      end
  end.

(** The heights given by the [set_object_height] calls of a sequence, the
    ops its calls append and the elements its calls register. *)
Definition heights_set (calls : list mutation) : list R :=
  flat_map (fun c => match c with SetObjectHeight h => [h] | _ => [] end) calls.

Definition ops_of (calls : list mutation) : list matrix_entry :=
  flat_map (fun c => match c with
                     | AddTransfer d => [(transfer, transfer_matrix d, d)]
                     | AddRefraction _ P _ => [(refraction, refraction_matrix P, 0)]
                     | _ => []
                     end) calls.

Definition elements_of (calls : list mutation) : list element :=
  flat_map (fun c => match c with
                     | AddRefraction pos _ d => [(lens, pos, d)]
                     | AddIris pos d => [(iris, pos, d)]
                     | _ => []
                     end) calls.

(** The sample two rays of slopes [w1], [w2] from the axis give at position
    [z] in free space, and the [i]-th of the 1000 positions over a length
    [L]. *)
Definition diverging_sample (w1 w2 z : R) : spread_sample :=
  (Fin (Rabs (w1 - w2) * z), z, Fin ((w1 + w2) / 2 * z)).

Definition sample_position (L : R) (i : nat) : R :=
  INR i * ((L - 0) / INR (1000 - 1)) + 0.

(** * Properties *)

(** ** The monad *)

Lemma bind_ok {S A B} (c : M S A) (k : A -> M S B) s a s' :
  c s = (Ok a, s') -> bind c k s = k a s'.
Proof. intros H; unfold bind; rewrite H; reflexivity. Qed.

Lemma trace_ray_run (s : OpticalSystem) (w0 y0 : R) :
  trace_ray w0 y0 s = (Ok (trace_path s w0 y0), s).
Proof. reflexivity. Qed.

(** ** Vignetting *)

Lemma blocks_spec (kind : elem_kind) (pos diameter z y : R) :
  blocks (kind, pos, diameter) z y = true <->
  Rabs (pos - z) < 1e-10 /\ Rabs y > diameter / 2.
Proof.
  unfold blocks; rewrite andb_true_iff, !Rltb_true; unfold Rgt; tauto.
Qed.

Lemma blocked_spec (els : list element) (z y : R) :
  blocked els z y = true <-> exists e, In e els /\ blocks e z y = true.
Proof.
  induction els as [|e els IH]; simpl.
  - split; [discriminate | intros (e & [] & _)].
  - destruct (blocks e z y) eqn:He.
    + split; auto. intros _; exists e; auto.
    + rewrite IH; split.
      * intros (e' & Hin & Hb); exists e'; auto.
      * intros (e' & [<- | Hin] & Hb); [congruence | exists e'; auto].
Qed.


Lemma apply_op_last (m : matrix_entry) (st : trace_state) :
  last (path (apply_op m st)) (0, 0) =
  (current_z (apply_op m st), fst (ray (apply_op m st))).
Proof.
  destruct m as [[k mat] d]; simpl. apply last_last.
Qed.


(** The reference example up to its first iris: at slope 0.3 the ray meets
    the 6 cm iris exactly at its rim and goes on; at slope 0.31 it stops
    there. *)
Example rim_ray_passes :
  trace_path (built [AddTransfer 10; AddIris 10 6; AddTransfer 2]) 0.3 0
  = [(0, 0); (10, 3); (12, 3.6)].
Proof.
  unfold trace_path, trace_final, built; simpl. rbool. simpl. rbool. simpl. req.
Qed.

Example outside_ray_blocked :
  trace_path (built [AddTransfer 10; AddIris 10 6; AddTransfer 2]) 0.31 0
  = [(0, 0); (10, 3.1)].
Proof.
  unfold trace_path, trace_final, built; simpl. rbool. simpl. req.
Qed.

(** ** The two paraxial operations *)

(** C4. A system whose only op is one refraction of power [P] (added by
    [add_refraction], at any position and with any diameter) leaves the
    height of every ray unchanged and turns its angle [w0] into
    [w0 - P * y0]; the traced path is the start sample twice, the refraction
    taking no axial distance.  This holds for every [P], zero included. *)
Theorem single_refraction :
  forall (position P diameter w0 y0 : R),
    let s := snd (add_refraction position P diameter init) in
    matrices s = [(refraction, refraction_matrix P, 0)] /\
    ray (trace_final s w0 y0) = (y0, w0 - P * y0) /\
    current_z (trace_final s w0 y0) = 0 /\
    trace_ray w0 y0 s = (Ok [(0, y0); (0, y0)], s).
Proof.
  intros position P diameter w0 y0 s.
  split; [reflexivity|].
  assert (Hf : trace_final s w0 y0 =
               mkTrace (1 * y0 + 0 * w0, - P * y0 + 1 * w0) (0 + 0)
                       [(0, y0); (0 + 0, 1 * y0 + 0 * w0)]).
  { unfold trace_final, s; simpl.
    destruct (Rltb _ _ && Rltb _ _); reflexivity. }
  rewrite trace_ray_run. unfold trace_path. rewrite Hf; simpl.
  repeat split; req.
Qed.

(** The same ray state seen from outside: a transfer after the lens shows
    the new slope in the next height. *)
Example refraction_then_transfer :
  trace_path (built [AddRefraction 0 (1 / 6) 6; AddTransfer 6]) 0 3
  = [(0, 3); (0, 3); (6, 0)].
Proof.
  unfold trace_path, trace_final, built; simpl. rbool. simpl. rbool. simpl. req.
Qed.

(** C5, as the code has it.  For all distances [d1], [d2] and every ray not
    vignetted at [d1], two transfers [d1], [d2] and one transfer [d1 + d2]
    leave the ray in the same state at the same axial position, and their
    paths end with the same sample; the path of the two transfers has one
    sample more, the one taken at [d1]. *)
Theorem transfer_composition :
  forall (d1 d2 w0 y0 : R) (els : list element) (oh : option R)
         (stop : option element),
    blocked els d1 (y0 + d1 * w0) = false ->
    let two := transfers [d1; d2] els oh stop in
    let one := transfers [d1 + d2] els oh stop in
    ray (trace_final two w0 y0) = ray (trace_final one w0 y0) /\
    current_z (trace_final two w0 y0) = current_z (trace_final one w0 y0) /\
    last (trace_path two w0 y0) (0, 0) = last (trace_path one w0 y0) (0, 0) /\
    trace_path one w0 y0 = [(0, y0); (d1 + d2, y0 + (d1 + d2) * w0)] /\
    trace_path two w0 y0 =
      [(0, y0); (d1, y0 + d1 * w0); (d1 + d2, y0 + (d1 + d2) * w0)].
Proof.
  intros d1 d2 w0 y0 els oh stop Hfree two one.
  assert (H1 : trace_final one w0 y0 =
               mkTrace (y0 + (d1 + d2) * w0, w0) (d1 + d2)
                       [(0, y0); (d1 + d2, y0 + (d1 + d2) * w0)]).
  { unfold trace_final, one, transfers; simpl.
    replace (0 + (d1 + d2)) with (d1 + d2) by ring.
    replace (1 * y0 + (d1 + d2) * w0) with (y0 + (d1 + d2) * w0) by ring.
    replace (0 * y0 + 1 * w0) with w0 by ring.
    case_if; reflexivity. }
  assert (H2 : trace_final two w0 y0 =
               mkTrace (y0 + (d1 + d2) * w0, w0) (d1 + d2)
                       [(0, y0); (d1, y0 + d1 * w0);
                        (d1 + d2, y0 + (d1 + d2) * w0)]).
  { unfold trace_final, two, transfers; simpl.
    replace (0 + d1) with d1 by ring.
    replace (1 * y0 + d1 * w0) with (y0 + d1 * w0) by ring.
    replace (0 * y0 + 1 * w0) with w0 by ring.
    rewrite Hfree.
    replace (1 * (y0 + d1 * w0) + d2 * w0) with (y0 + (d1 + d2) * w0) by ring.
    replace (0 * (y0 + d1 * w0) + 1 * w0) with w0 by ring.
    case_if; reflexivity. }
  unfold trace_path; rewrite H1, H2; simpl. repeat split; reflexivity.
Qed.

Lemma transfer_composition_witness :
  blocked [(iris, 10, 6)] 10 (0 + 10 * 0.25) = false /\
  trace_path (transfers [10; 2] [(iris, 10, 6)] None None) 0.25 0
  = [(0, 0); (10, 0 + 10 * 0.25); (10 + 2, 0 + (10 + 2) * 0.25)].
Proof.
  assert (H : blocked [(iris, 10, 6)] 10 (0 + 10 * 0.25) = false)
    by (simpl; rbool; reflexivity).
  split; [exact H|].
  exact (proj2 (proj2 (proj2 (proj2
    (transfer_composition 10 2 0.25 0 [(iris, 10, 6)] None None H))))).
Defined.

(** C5, as the specification states it, fails: the two traces are different
    paths.  Two transfers of 1 cm give three samples, one transfer of 2 cm
    gives two. *)
Lemma transfer_composition_paths_differ :
  trace_path (built [AddTransfer 1; AddTransfer 1]) 0 0 = [(0, 0); (1, 0); (2, 0)] /\
  trace_path (built [AddTransfer (1 + 1)]) 0 0 = [(0, 0); (2, 0)] /\
  trace_path (built [AddTransfer 1; AddTransfer 1]) 0 0
  <> trace_path (built [AddTransfer (1 + 1)]) 0 0.
Proof.
  assert (H2 : trace_path (built [AddTransfer 1; AddTransfer 1]) 0 0
               = [(0, 0); (1, 0); (2, 0)]).
  { unfold trace_path, trace_final, built; simpl. req. }
  assert (H1 : trace_path (built [AddTransfer (1 + 1)]) 0 0 = [(0, 0); (2, 0)]).
  { unfold trace_path, trace_final, built; simpl. req. }
  rewrite H1, H2. repeat split. discriminate.
Qed.

(** ** The marginal-ray search *)

Lemma candidate_S (k : nat) : candidate k + angle_step = candidate (S k).
Proof. unfold candidate; rewrite S_INR; ring. Qed.

Lemma candidate_pred (k : nat) : candidate (S k) - angle_step = candidate k.
Proof. rewrite <- candidate_S; ring. Qed.

Lemma candidate_1 : candidate 1 = angle_step.
Proof. unfold candidate; simpl; ring. Qed.

Lemma candidate_increasing (k : nat) : candidate k < candidate (S k).
Proof. rewrite <- candidate_S; unfold angle_step; lra. Qed.

Section MarginalSearch.

Variable s : OpticalSystem.

(** One iteration, on a path the loop classifies as passed. *)
Lemma marginal_body_pass (st : search_state) :
  let p := trace_path s (tan (deg_to_rad (current_angle st))) 0 in
  path_passes s p = true ->
  marginal_body st s
  = (Ok (Continue (mkSearch (current_angle st + angle_step) (Some p))), s).
Proof.
  intros p Hp. unfold path_passes, reaches_end, total_distance in Hp.
  apply andb_true_iff in Hp. destruct Hp as [Hlen Hend].
  apply negb_true_iff in Hlen, Hend.
  unfold marginal_body, bind, trace_ray, gets, ret; simpl.
  change (path (trace_loop (optical_elements s) (matrices s)
                           (trace_init (tan (deg_to_rad (current_angle st))) 0)))
    with p.
  rewrite Hlen, Hend. reflexivity.
Qed.

(** One iteration, on a path the loop classifies as failed. *)
Lemma marginal_body_fail (st : search_state) :
  let p := trace_path s (tan (deg_to_rad (current_angle st))) 0 in
  path_passes s p = false ->
  marginal_body st s
  = (Ok (Return match last_successful_path st with
                | Some lp => [(current_angle st - angle_step, lp)]
                | None => []
                end),
     after_failure s p).
Proof.
  intros p Hp. unfold path_passes, reaches_end, total_distance in Hp.
  unfold marginal_body, after_failure, bind, trace_ray, gets, ret; simpl.
  change (path (trace_loop (optical_elements s) (matrices s)
                           (trace_init (tan (deg_to_rad (current_angle st))) 0)))
    with p.
  destruct (length p <? 2)%nat eqn:Hlen.
  - destruct (last_successful_path st); reflexivity.
  - simpl in Hp. apply negb_false_iff in Hp. rewrite Hp.
    unfold record_stop, bind, gets, modify, ret.
    destruct (find_stop (optical_elements s) (final_z p));
      destruct (last_successful_path st); reflexivity.
Qed.

Lemma marginal_loop_passing :
  forall (n k : nat) (lp : option ray_path) (fuel : nat),
    (forall j, (k <= j < k + n)%nat -> passes s j = true) ->
    marginal_loop (n + fuel) (mkSearch (candidate k) lp) s
    = marginal_loop fuel (mkSearch (candidate (k + n)) (last_after s k n lp)) s.
Proof.
  induction n as [|n IH]; intros k lp fuel Hpass.
  - simpl. rewrite Nat.add_0_r. reflexivity.
  - assert (Hk : passes s k = true) by (apply Hpass; lia).
    change (S n + fuel)%nat with (S (n + fuel)).
    cbn [marginal_loop].
    erewrite bind_ok; [| apply marginal_body_pass; exact Hk].
    cbn [current_angle]. rewrite candidate_S.
    rewrite IH by (intros j Hj; apply Hpass; lia).
    replace (S k + n)%nat with (k + S n)%nat by lia.
    f_equal. f_equal.
    destruct n as [|n]; simpl.
    + rewrite Nat.add_0_r. reflexivity.
    + do 2 f_equal. lia.
Qed.

Lemma last_after_first (k0 : nat) :
  match last_after s 1 (k0 - 1) None with
  | Some lp => [(candidate (1 + (k0 - 1)) - angle_step, lp)]
  | None => []
  end = result_at s k0.
Proof.
  destruct k0 as [|[|k]]; try reflexivity.
  cbn [Nat.sub result_at last_after Nat.add].
  rewrite candidate_pred. reflexivity.
Qed.

(** The search returns in the iteration of the first failing candidate. *)
Lemma find_marginal_rays_returns (k0 fuel : nat) :
  (1 <= k0)%nat ->
  passes s k0 = false ->
  (forall j, (1 <= j < k0)%nat -> passes s j = true) ->
  (k0 <= fuel)%nat ->
  find_marginal_rays fuel s
  = (Ok (result_at s k0), after_failure s (candidate_path s k0)).
Proof.
  intros Hk Hfail Hpass Hfuel.
  unfold find_marginal_rays. rewrite <- candidate_1.
  replace fuel with ((k0 - 1) + S (fuel - k0))%nat by lia.
  rewrite marginal_loop_passing by (intros j Hj; apply Hpass; lia).
  cbn [marginal_loop].
  assert (Hk0 : (1 + (k0 - 1))%nat = k0) by lia.
  erewrite bind_ok.
  2:{ apply marginal_body_fail. cbn [current_angle]. rewrite Hk0. exact Hfail. }
  cbn [current_angle last_successful_path].
  rewrite last_after_first, Hk0. reflexivity.
Qed.

(** Before that iteration the loop is still running. *)
Lemma find_marginal_rays_running (k0 fuel : nat) :
  (forall j, (1 <= j < k0)%nat -> passes s j = true) ->
  (fuel < k0)%nat ->
  find_marginal_rays fuel s = (OutOfFuel, s).
Proof.
  intros Hpass Hfuel.
  unfold find_marginal_rays. rewrite <- candidate_1.
  replace fuel with (fuel + 0)%nat by lia.
  rewrite marginal_loop_passing by (intros j Hj; apply Hpass; lia).
  reflexivity.
Qed.

(** A failing candidate gives a first failing candidate. *)
Lemma first_failure (K : nat) :
  (1 <= K)%nat ->
  passes s K = false ->
  exists k0, (1 <= k0 <= K)%nat /\ passes s k0 = false /\
             forall j, (1 <= j < k0)%nat -> passes s j = true.
Proof.
  intros HK Hfail.
  assert (Hsearch : forall n,
             (forall j, (1 <= j < n)%nat -> passes s j = true) \/
             exists k0, (1 <= k0 < n)%nat /\ passes s k0 = false /\
                        forall j, (1 <= j < k0)%nat -> passes s j = true).
  { induction n as [|n [IH | IH]].
    - left; intros j Hj; lia.
    - destruct n as [|n].
      + left; intros j Hj; lia.
      + destruct (passes s (S n)) eqn:Hn.
        * left. intros j Hj.
          destruct (Nat.eq_dec j (S n)) as [-> | Hne]; [exact Hn | apply IH; lia].
        * right. exists (S n). repeat split; auto; lia.
    - right. destruct IH as (k0 & Hk0 & H1 & H2).
      exists k0. repeat split; auto; lia. }
  destruct (Hsearch K) as [Hall | (k0 & Hk0 & H1 & H2)].
  - exists K. repeat split; auto.
  - exists k0. repeat split; auto; lia.
Qed.

End MarginalSearch.

(** *** The two small systems *)

Lemma iris_system_total : total_distance iris_system = 2.
Proof.
  unfold total_distance, total_distance_of, iris_system, built; simpl.
  rbool. simpl. lra.
Qed.

Lemma iris_system_path (w : R) :
  trace_path iris_system w 0
  = if Rltb 1 (Rabs w) then [(0, 0); (1, w)] else [(0, 0); (1, w); (2, 2 * w)].
Proof.
  unfold trace_path, trace_final, iris_system, built; simpl.
  replace (1 * 0 + 1 * w) with w by ring.
  replace (0 + 1) with 1 by ring.
  replace (2 / 2) with 1 by lra.
  replace (Rltb (Rabs (1 - 1)) 1e-10) with true
    by (symmetry; apply Rltb_true; rsolve).
  simpl. destruct (Rltb 1 (Rabs w)); [reflexivity|].
  simpl. rbool. simpl. req.
Qed.

Lemma iris_system_passes (w : R) :
  path_passes iris_system (trace_path iris_system w 0) = negb (Rltb 1 (Rabs w)).
Proof.
  rewrite iris_system_path. unfold path_passes, reaches_end.
  rewrite iris_system_total.
  destruct (Rltb 1 (Rabs w)); unfold final_z; simpl; rbool; reflexivity.
Qed.

Lemma candidate_of_Z (z : Z) : (0 <= z)%Z -> candidate (Z.to_nat z) = IZR z * angle_step.
Proof.
  intros Hz. unfold candidate. rewrite INR_IZR_INZ, Z2Nat.id by exact Hz. reflexivity.
Qed.

(** The first candidate, 0.01 degrees, gets through the iris. *)
Lemma iris_system_first_passes : passes iris_system 1 = true.
Proof.
  unfold passes, candidate_path. rewrite iris_system_passes.
  apply negb_true_iff, Rltb_false.
  rewrite candidate_1. unfold deg_to_rad, angle_step.
  assert (Hpi := PI_RGT_0).
  assert (H0 : 0 < tan (0.01 * PI / 180)) by (apply tan_gt_0; lra).
  assert (H1 : tan (0.01 * PI / 180) < tan (PI / 4))
    by (apply tan_increasing; lra).
  rewrite tan_PI4 in H1. rewrite Rabs_pos_eq; lra.
Qed.

(** The candidate at 60 degrees does not: its slope is [sqrt 3]. *)
Lemma iris_system_fails_at_60 : passes iris_system (Z.to_nat 6000) = false.
Proof.
  unfold passes, candidate_path. rewrite iris_system_passes.
  apply negb_false_iff, Rltb_true.
  rewrite candidate_of_Z by lia. unfold deg_to_rad, angle_step.
  replace (6000 * 0.01 * PI / 180) with (PI / 3) by lra.
  rewrite tan_PI3.
  assert (H : 1 < sqrt 3).
  { rewrite <- sqrt_1 at 1. apply sqrt_lt_1; lra. }
  rewrite Rabs_pos_eq; lra.
Qed.

(** The candidate at 180 degrees does again: its slope is 0. *)
Lemma iris_system_passes_at_180 : passes iris_system (Z.to_nat 18000) = true.
Proof.
  unfold passes, candidate_path. rewrite iris_system_passes.
  apply negb_true_iff, Rltb_false.
  rewrite candidate_of_Z by lia. unfold deg_to_rad, angle_step.
  replace (18000 * 0.01 * PI / 180) with PI by lra.
  rewrite tan_PI, Rabs_R0. lra.
Qed.

Lemma free_space_passes (k : nat) : passes free_space k = true.
Proof.
  unfold passes, candidate_path, path_passes, reaches_end, total_distance,
    total_distance_of, trace_path, trace_final, final_z, free_space, built; simpl.
  rbool. simpl. rbool. reflexivity.
Qed.

Lemma candidate_lt (a b : nat) : (a < b)%nat -> candidate a < candidate b.
Proof.
  intros H. unfold candidate, angle_step.
  apply lt_INR in H. nra.
Qed.

Lemma candidate_unbounded (A : R) : exists k, (1 <= k)%nat /\ A < candidate k.
Proof.
  destruct (INR_archimed angle_step A) as [n Hn]; [unfold angle_step; lra|].
  exists (S n). split; [lia|].
  pose proof (candidate_increasing n) as Hinc. unfold candidate in *. lra.
Qed.

(** C1, as the code has it.  When some candidate angle fails, the search
    returns at the first failing candidate [k0]: the empty list when that is
    the very first candidate, and otherwise the single pair of the angle
    [(k0 - 1) * 0.01] degrees, the last one before the first failure, with the
    full path traced at that angle, whose final axial position equals the
    total transfer length within 1e-10.  The returned angle is the largest
    multiple [k] of the step such that every candidate from the first up to
    [k] traces successfully. *)
Theorem find_marginal_rays_first_failure :
  forall (s : OpticalSystem) (K : nat),
    (1 <= K)%nat ->
    passes s K = false ->
    exists k0 : nat,
      (1 <= k0 <= K)%nat /\
      (forall fuel, (k0 <= fuel)%nat ->
         fst (find_marginal_rays fuel s) = Ok (result_at s k0)) /\
      (k0 = 1%nat -> result_at s k0 = []) /\
      (1 < k0 ->
         result_at s k0 = [(candidate (k0 - 1), candidate_path s (k0 - 1))] /\
         candidate_path s (k0 - 1)
         = trace_path s (tan (INR (k0 - 1) * 0.01 * PI / 180)) 0 /\
         reaches_end s (candidate_path s (k0 - 1)) = true)%nat /\
      (forall j, (1 <= j <= k0 - 1)%nat -> passes s j = true) /\
      (forall k, (forall j, (1 <= j <= k)%nat -> passes s j = true) ->
                 (k <= k0 - 1)%nat).
Proof.
  intros s K HK Hfail.
  destruct (first_failure s K HK Hfail) as (k0 & Hk0 & Hf & Hp).
  exists k0. split; [exact Hk0|]. split; [| split; [| split; [| split]]].
  - intros fuel Hfuel.
    rewrite (find_marginal_rays_returns s k0 fuel); auto; lia.
  - intros ->. reflexivity.
  - intros Hgt. destruct k0 as [|[|k]]; try lia.
    cbn [Nat.sub]. repeat split.
    assert (Hk : passes s (S k) = true) by (apply Hp; lia).
    unfold passes, path_passes in Hk. apply andb_true_iff in Hk. tauto.
  - intros j Hj. apply Hp. lia.
  - intros k Hk. destruct (le_lt_dec k (k0 - 1)) as [Hle | Hlt]; [exact Hle|].
    assert (Hc : passes s k0 = true) by (apply Hk; lia).
    congruence.
Qed.

Lemma find_marginal_rays_first_failure_witness :
  exists k0 : nat,
    (1 <= k0 <= Z.to_nat 6000)%nat /\
    (forall fuel, (k0 <= fuel)%nat ->
       fst (find_marginal_rays fuel iris_system) = Ok (result_at iris_system k0)) /\
    (k0 = 1%nat -> result_at iris_system k0 = []) /\
    (1 < k0 ->
       result_at iris_system k0
       = [(candidate (k0 - 1), candidate_path iris_system (k0 - 1))] /\
       candidate_path iris_system (k0 - 1)
       = trace_path iris_system (tan (INR (k0 - 1) * 0.01 * PI / 180)) 0 /\
       reaches_end iris_system (candidate_path iris_system (k0 - 1)) = true)%nat /\
    (forall j, (1 <= j <= k0 - 1)%nat -> passes iris_system j = true) /\
    (forall k, (forall j, (1 <= j <= k)%nat -> passes iris_system j = true) ->
               (k <= k0 - 1)%nat).
Proof.
  apply (find_marginal_rays_first_failure iris_system (Z.to_nat 6000)).
  - lia.
  - exact iris_system_fails_at_60.
Defined.

(** C1, as the specification states it, fails: the returned angle is not
    the largest multiple of the step whose path reaches the end of the
    system.  For the iris system the search returns one pair, with an angle
    below 60 degrees; the candidate at 180 degrees has slope [tan PI = 0] and
    its path reaches the end as well. *)
Lemma marginal_angle_not_largest :
  exists k0 : nat,
    (2 <= k0 <= Z.to_nat 6000)%nat /\
    (forall fuel, (k0 <= fuel)%nat ->
       fst (find_marginal_rays fuel iris_system)
       = Ok [(candidate (k0 - 1), candidate_path iris_system (k0 - 1))]) /\
    candidate (k0 - 1) < candidate (Z.to_nat 18000) /\
    candidate (Z.to_nat 18000) = 180 /\
    (2 <= length (candidate_path iris_system (Z.to_nat 18000)))%nat /\
    reaches_end iris_system (candidate_path iris_system (Z.to_nat 18000)) = true.
Proof.
  destruct (first_failure iris_system (Z.to_nat 6000)) as (k0 & Hk0 & Hf & Hp);
    [lia | exact iris_system_fails_at_60 |].
  assert (H2 : (2 <= k0)%nat).
  { destruct (Nat.eq_dec k0 1) as [-> | Hne]; [| lia].
    rewrite iris_system_first_passes in Hf. discriminate. }
  exists k0. split; [lia|]. split; [| split; [| split]].
  - intros fuel Hfuel.
    rewrite (find_marginal_rays_returns iris_system k0 fuel); auto; try lia.
    destruct k0 as [|[|k]]; try lia.
    cbn [Nat.sub fst result_at]. reflexivity.
  - apply candidate_lt. lia.
  - rewrite candidate_of_Z by lia. unfold angle_step. lra.
  - pose proof iris_system_passes_at_180 as H.
    unfold passes, path_passes in H. apply andb_true_iff in H.
    destruct H as [Hlen Hend]. split; [| exact Hend].
    apply negb_true_iff, Nat.ltb_ge in Hlen. exact Hlen.
Qed.

(** C8. The candidates increase without bound, the [n]-th iteration looks
    at the [n]-th multiple of the step, and the loop returns in the
    iteration of the first failing candidate: with fewer iterations it is
    still running, with that many it has returned.  When every candidate
    passes, the loop is still running after any number of iterations. *)
Theorem marginal_search_termination :
  forall s : OpticalSystem,
    (forall k, candidate k < candidate (S k)) /\
    (forall A, exists k, (1 <= k)%nat /\ A < candidate k) /\
    (forall n fuel,
        (forall j, (1 <= j <= n)%nat -> passes s j = true) ->
        find_marginal_rays (n + fuel) s
        = marginal_loop fuel (mkSearch (candidate (S n)) (last_after s 1 n None)) s) /\
    (forall K, (1 <= K)%nat -> passes s K = false ->
       exists k0,
         (1 <= k0 <= K)%nat /\ passes s k0 = false /\
         (forall j, (1 <= j < k0)%nat -> passes s j = true) /\
         (forall fuel, (fuel < k0)%nat ->
            fst (find_marginal_rays fuel s) = OutOfFuel) /\
         (forall fuel, (k0 <= fuel)%nat ->
            fst (find_marginal_rays fuel s) = Ok (result_at s k0))) /\
    ((forall k, (1 <= k)%nat -> passes s k = true) ->
     forall fuel, find_marginal_rays fuel s = (OutOfFuel, s)).
Proof.
  intros s. split; [| split; [| split; [| split]]].
  - apply candidate_increasing.
  - apply candidate_unbounded.
  - intros n fuel Hpass. unfold find_marginal_rays. rewrite <- candidate_1.
    rewrite marginal_loop_passing by (intros j Hj; apply Hpass; lia).
    reflexivity.
  - intros K HK Hfail.
    destruct (first_failure s K HK Hfail) as (k0 & Hk0 & Hf & Hp).
    exists k0. repeat split; try tauto.
    + intros fuel Hfuel.
      rewrite (find_marginal_rays_running s k0 fuel); auto.
    + intros fuel Hfuel.
      rewrite (find_marginal_rays_returns s k0 fuel); auto; lia.
  - intros Hall fuel.
    apply (find_marginal_rays_running s (S fuel)); [| lia].
    intros j Hj. apply Hall. lia.
Qed.

Lemma marginal_search_termination_witness :
  (exists k0,
      (1 <= k0 <= Z.to_nat 6000)%nat /\ passes iris_system k0 = false /\
      (forall j, (1 <= j < k0)%nat -> passes iris_system j = true) /\
      (forall fuel, (fuel < k0)%nat ->
         fst (find_marginal_rays fuel iris_system) = OutOfFuel) /\
      (forall fuel, (k0 <= fuel)%nat ->
         fst (find_marginal_rays fuel iris_system) = Ok (result_at iris_system k0))) /\
  (forall fuel, find_marginal_rays fuel free_space = (OutOfFuel, free_space)).
Proof.
  split.
  - apply (proj1 (proj2 (proj2 (proj2 (marginal_search_termination iris_system))))
             (Z.to_nat 6000)).
    + lia.
    + exact iris_system_fails_at_60.
  - apply (proj2 (proj2 (proj2 (proj2 (marginal_search_termination free_space))))).
    intros k _. apply free_space_passes.
Defined.

(** C10. A system without any op: the first candidate traces to the single
    sample [(0, 0)]; its final axial position 0 equals the total transfer
    length 0, yet a path of fewer than two samples is classified as failing,
    so the search returns the empty list in its first iteration and leaves
    the system, the stop marker included, as it was. *)
Theorem empty_system_marginal :
  forall (els : list element) (oh : option R) (stop : option element) (fuel : nat),
    let s := mkSystem [] els oh stop in
    trace_ray (tan (deg_to_rad angle_step)) 0 s = (Ok [(0, 0)], s) /\
    total_distance s = 0 /\
    reaches_end s [(0, 0)] = true /\
    path_passes s [(0, 0)] = false /\
    find_marginal_rays (S fuel) s = (Ok [], s) /\
    STOP_optic (snd (find_marginal_rays (S fuel) s)) = stop.
Proof.
  intros els oh stop fuel s.
  assert (Hend : reaches_end s [(0, 0)] = true).
  { unfold reaches_end, total_distance, total_distance_of, final_z; simpl.
    rbool. reflexivity. }
  assert (Hrun : find_marginal_rays (S fuel) s = (Ok [], s)).
  { unfold find_marginal_rays. cbn [marginal_loop].
    erewrite bind_ok; [| apply marginal_body_fail; reflexivity].
    reflexivity. }
  split; [reflexivity|]. split; [reflexivity|]. split; [exact Hend|].
  split; [reflexivity|]. split; [exact Hrun|].
  rewrite Hrun. reflexivity.
Qed.

(** ** The image-position search *)

Lemma tuple_lt_asym (a b : spread_sample) : tuple_lt a b = true -> tuple_lt b a = false.
Proof.
  destruct a as [[[s1|] z1] [m1|]], b as [[[s2|] z2] [m2|]];
    unfold tuple_lt, feq, flt, Reqb, Rltb;
    repeat match goal with
           | |- context [Req_dec_T ?x ?y] => destruct (Req_dec_T x y)
           | |- context [Rlt_dec ?x ?y] => destruct (Rlt_dec x y)
           end; intros; subst; try reflexivity; try discriminate; lra.
Qed.

Lemma fle_trans (a b c : npfloat) : fle a b -> fle b c -> fle a c.
Proof. destruct a, b, c; simpl; try tauto. lra. Qed.

Lemma finite_sample_eq (c : spread_sample) :
  finite_sample c -> exists sp m, c = (Fin sp, sample_z c, Fin m).
Proof.
  destruct c as [[sp z] m]. intros (x & y & Hx & Hy).
  unfold sample_spread, sample_mean in *. simpl in *. subst.
  exists x, y. reflexivity.
Qed.

(** Without nan the order of [list.sort] is ascending by spread. *)
Lemma tuple_le_spread (a b : spread_sample) :
  finite_sample a -> finite_sample b -> tuple_le a b -> spread_le a b.
Proof.
  intros Ha Hb.
  destruct (finite_sample_eq a Ha) as (s1 & m1 & ->).
  destruct (finite_sample_eq b Hb) as (s2 & m2 & ->).
  unfold tuple_le, spread_le, sample_spread, tuple_lt, feq, flt, fle, Reqb, Rltb; simpl.
  repeat match goal with
         | |- context [Req_dec_T ?x ?y] => destruct (Req_dec_T x y)
         | |- context [Rlt_dec ?x ?y] => destruct (Rlt_dec x y)
         end; intros; subst; try discriminate; lra.
Qed.

Lemma insert_sorted_perm (x : spread_sample) (l : list spread_sample) :
  Permutation (insert_sorted x l) (x :: l).
Proof.
  induction l as [|y l IH]; simpl; [reflexivity|].
  destruct (tuple_lt x y); [reflexivity|].
  rewrite IH. apply perm_swap.
Qed.

Lemma insert_sorted_HdRel (x y : spread_sample) (l : list spread_sample) :
  tuple_le y x -> HdRel tuple_le y l -> HdRel tuple_le y (insert_sorted x l).
Proof.
  intros Hyx Hhd. destruct l as [|z l]; simpl.
  - constructor; exact Hyx.
  - destruct (tuple_lt x z); constructor; [exact Hyx|].
    inversion Hhd; assumption.
Qed.

Lemma insert_sorted_Sorted (x : spread_sample) (l : list spread_sample) :
  Sorted tuple_le l -> Sorted tuple_le (insert_sorted x l).
Proof.
  induction 1 as [|y l Hs IH Hhd]; simpl.
  - repeat constructor.
  - destruct (tuple_lt x y) eqn:Hxy.
    + constructor; [constructor; assumption|].
      constructor. apply tuple_lt_asym; exact Hxy.
    + constructor; [exact IH|].
      apply insert_sorted_HdRel; [exact Hxy | exact Hhd].
Qed.

Lemma py_sort_from (l acc : list spread_sample) :
  Sorted tuple_le acc ->
  Sorted tuple_le (fold_left (fun a x => insert_sorted x a) l acc) /\
  Permutation (fold_left (fun a x => insert_sorted x a) l acc) (l ++ acc).
Proof.
  revert acc. induction l as [|x l IH]; intros acc Hacc; simpl.
  - split; [exact Hacc | reflexivity].
  - destruct (IH (insert_sorted x acc) (insert_sorted_Sorted x acc Hacc)) as [Hs Hp].
    split; [exact Hs|].
    rewrite Hp, insert_sorted_perm. symmetry. apply Permutation_middle.
Qed.

Lemma py_sort_perm (l : list spread_sample) : Permutation (py_sort l) l.
Proof.
  unfold py_sort. destruct (py_sort_from l [] (Sorted_nil _)) as [_ Hp].
  rewrite Hp, app_nil_r. reflexivity.
Qed.

(** The insertion sort is one [list.sort] can be. *)
Lemma py_sort_python_sort : python_sort py_sort.
Proof. split; [exact py_sort_perm | reflexivity]. Qed.

Lemma Sorted_spread (l : list spread_sample) :
  Forall finite_sample l -> Sorted tuple_le l -> StronglySorted spread_le l.
Proof.
  intros Hfin Hs. apply Sorted_StronglySorted.
  - intros a b c. apply fle_trans.
  - induction Hs as [|a l Hs IH Hhd]; [constructor|].
    inversion Hfin as [|? ? Ha Hl]; subst.
    constructor; [apply IH; exact Hl|].
    destruct Hhd as [|b l Hab]; constructor.
    inversion Hl; subst. apply tuple_le_spread; assumption.
Qed.

Lemma py_sort_ascending (l : list spread_sample) :
  Forall finite_sample l -> StronglySorted spread_le (py_sort l).
Proof.
  intros Hfin. apply Sorted_spread.
  - apply (Permutation_Forall (Permutation_sym (py_sort_perm l))). exact Hfin.
  - unfold py_sort. apply py_sort_from. constructor.
Qed.

Lemma spread_le_refl (c : spread_sample) : finite_sample c -> spread_le c c.
Proof.
  intros (sp & m & Hs & _). unfold spread_le. rewrite Hs. simpl. lra.
Qed.

(** The selection loop, started on the head of the sorted samples, returns
    the first later sample more than 1 cm away from it. *)
Lemma select_second_spec (c1 : spread_sample) (rest : list spread_sample) :
  select_second [c1] rest = second_distinct_candidate (c1 :: rest).
Proof.
  unfold second_distinct_candidate.
  induction rest as [|[[sp z] h] rest IH]; [reflexivity|].
  assert (H1 : 1.0 = 1) by lra.
  cbn [select_second find last]. rewrite H1.
  change (sample_z (sp, z, h)) with z.
  destruct (Rltb 1 (Rabs (z - sample_z c1))); [reflexivity | exact IH].
Qed.

Lemma collect_paths_run (s : OpticalSystem) :
  forall (group : list (R * R)) (acc : list ray_path),
    collect_paths group acc s = (Ok (acc ++ multi_point_paths s group), s).
Proof.
  induction group as [|[w0 y0] group IH]; intros acc.
  - simpl. unfold ret, multi_point_paths; simpl. rewrite app_nil_r. reflexivity.
  - cbn [collect_paths].
    erewrite bind_ok; [| apply trace_ray_run].
    unfold multi_point_paths in *. cbn [map filter fst snd].
    destruct (1 <? length (trace_path s w0 y0))%nat.
    + rewrite IH, <- app_assoc. reflexivity.
    + apply IH.
Qed.

Section ListSort.

Variable list_sort : list spread_sample -> list spread_sample.

Lemma find_convergence_run (s : OpticalSystem) (group : list (R * R)) :
  find_convergence list_sort group s = (Ok (convergence list_sort s group), s).
Proof.
  unfold find_convergence, convergence.
  erewrite bind_ok; [| apply (collect_paths_run s group [])].
  cbn [app].
  destruct (length (multi_point_paths s group) <? 2)%nat; [reflexivity|].
  unfold bind, gets. unfold sorted_samples, samples_of, total_distance.
  set (spreads := collect_spreads _ _).
  destruct spreads as [|x xs] eqn:Hsp; [reflexivity|].
  destruct (list_sort (x :: xs)) as [|c1 [|c2 r]]; try reflexivity.
  cbn [length Nat.leb firstn skipn]. unfold ret.
  rewrite select_second_spec. reflexivity.
Qed.

Lemma find_image_position_run (s : OpticalSystem) (H : R) (rays : list (R * R)) :
  object_height s = Some H ->
  find_image_position list_sort rays s
  = (Ok (fst (convergence list_sort s (base_rays rays)),
         snd (convergence list_sort s (base_rays rays)),
         fst (convergence list_sort s (tip_rays H rays)),
         snd (convergence list_sort s (tip_rays H rays))),
     s).
Proof.
  intros Hoh. unfold find_image_position, bind at 1, gets. rewrite Hoh.
  fold (base_rays rays). fold (tip_rays H rays).
  erewrite bind_ok; [| apply find_convergence_run].
  erewrite bind_ok; [| apply find_convergence_run].
  reflexivity.
Qed.

Lemma find_image_position_unset (s : OpticalSystem) (rays : list (R * R)) :
  object_height s = None ->
  find_image_position list_sort rays s = (Raise (ValueError "Object height not set"), s).
Proof.
  intros Hn. unfold find_image_position, bind, gets. rewrite Hn. reflexivity.
Qed.

End ListSort.

Lemma linspace_length (a b : R) (n : nat) : length (linspace a b n) = n.
Proof. unfold linspace. rewrite length_map, length_seq. reflexivity. Qed.

Lemma linspace_nth (a b : R) (n i : nat) :
  (i < n)%nat ->
  nth i (linspace a b n) 0 = INR i * ((b - a) / INR (n - 1)) + a.
Proof.
  intros Hi. unfold linspace.
  set (f := fun j : nat => INR j * ((b - a) / INR (n - 1)) + a).
  rewrite (nth_indep _ 0 (f 0%nat))
    by (rewrite length_map, length_seq; exact Hi).
  rewrite (map_nth f), seq_nth by exact Hi. reflexivity.
Qed.

Lemma collect_spreads_z (ray_paths : list ray_path) (zs : list R) (c : spread_sample) :
  In c (collect_spreads ray_paths zs) -> In (sample_z c) zs.
Proof.
  unfold collect_spreads. rewrite in_flat_map. intros (z & Hz & Hc).
  unfold spread_at in Hc. destruct (heights_at ray_paths z); [destruct Hc|].
  destruct Hc as [<- | []]. exact Hz.
Qed.

Lemma linspace_In (a b : R) (n : nat) (z : R) :
  In z (linspace a b n) ->
  exists i, (i < n)%nat /\ z = INR i * ((b - a) / INR (n - 1)) + a.
Proof.
  unfold linspace. rewrite in_map_iff. intros (i & <- & Hi).
  apply in_seq in Hi. exists i. split; [lia | reflexivity].
Qed.

Lemma second_distinct_found (c1 c2 : spread_sample) (pre post : list spread_sample) :
  Forall (fun c => Rabs (sample_z c - sample_z c1) <= 1) pre ->
  Rabs (sample_z c2 - sample_z c1) > 1 ->
  second_distinct_candidate (c1 :: pre ++ c2 :: post)
  = (Some (sample_z c2), Some (sample_mean c2)).
Proof.
  intros Hpre Hc2. unfold second_distinct_candidate.
  induction Hpre as [|c pre Hc _ IH]; simpl.
  - replace (Rltb 1 (Rabs (sample_z c2 - sample_z c1))) with true; [reflexivity|].
    symmetry; apply Rltb_true; lra.
  - replace (Rltb 1 (Rabs (sample_z c - sample_z c1))) with false; [exact IH|].
    symmetry; apply Rltb_false; lra.
Qed.

Lemma second_distinct_absent (c1 : spread_sample) (rest : list spread_sample) :
  Forall (fun c => Rabs (sample_z c - sample_z c1) <= 1) rest ->
  second_distinct_candidate (c1 :: rest) = (None, None).
Proof.
  intros Hrest. unfold second_distinct_candidate.
  induction Hrest as [|c rest Hc _ IH]; simpl; [reflexivity|].
  replace (Rltb 1 (Rabs (sample_z c - sample_z c1))) with false; [exact IH|].
  symmetry; apply Rltb_false; lra.
Qed.

Lemma filter_Rltb_In {A} (f : A -> R) (bound : R) (l : list A) (x : A) :
  In x (filter (fun r => Rltb (Rabs (f r)) bound) l) <-> In x l /\ Rabs (f x) < bound.
Proof. rewrite filter_In, Rltb_true. reflexivity. Qed.

(** The selection on four samples already sorted by spread: the head is at
    z = 0, the next two are within 1 cm of it, the fourth is the image.  A
    nan sample is not less than any sample and no sample is less than it:
    insertion leaves it where it stands. *)
Example second_distinct_candidate_example :
  select_second [(Fin 0, 0, Fin 4)]
                [(Fin 0.1, 0.5, Fin 4); (Fin 0.2, 1, Fin 4); (Fin 0.3, 24, Fin (-4))]
  = (Some 24, Some (Fin (-4))) /\
  py_sort [(Fin 0.3, 24, Fin (-4)); (Fin 0.1, 0.5, Fin 4); (Fin 0, 0, Fin 4);
           (Fin 0.2, 1, Fin 4)]
  = [(Fin 0, 0, Fin 4); (Fin 0.1, 0.5, Fin 4); (Fin 0.2, 1, Fin 4);
     (Fin 0.3, 24, Fin (-4))] /\
  py_sort [(NaN, 0, NaN); (Fin 0.2, 1, Fin 4); (Fin 0.1, 0.5, Fin 4)]
  = [(NaN, 0, NaN); (Fin 0.1, 0.5, Fin 4); (Fin 0.2, 1, Fin 4)].
Proof.
  split; [| split].
  - simpl. unfold sample_z; simpl. rbool. simpl. rbool. reflexivity.
  - unfold py_sort; simpl. rbool. simpl. rbool. simpl. rbool. reflexivity.
  - unfold py_sort; simpl. rbool. reflexivity.
Qed.

(** ** The object height *)

Lemma apply_mutation_ok (c : mutation) (s : OpticalSystem) :
  apply_mutation c s = (Ok tt, snd (apply_mutation c s)).
Proof. destruct c; reflexivity. Qed.

Lemma apply_mutation_height (c : mutation) (s : OpticalSystem) :
  object_height (snd (apply_mutation c s)) = None <->
  object_height s = None /\ is_set_object_height c = false.
Proof.
  destruct c; simpl; split; try tauto; try discriminate; intros [_ H]; discriminate.
Qed.

Lemma apply_mutations_height (calls : list mutation) :
  forall s : OpticalSystem,
    object_height (snd (apply_mutations calls s)) = None <->
    object_height s = None /\ forallb (fun c => negb (is_set_object_height c)) calls = true.
Proof.
  induction calls as [|c calls IH]; intros s.
  - simpl. tauto.
  - cbn [apply_mutations forallb].
    erewrite bind_ok; [| apply apply_mutation_ok].
    rewrite IH, apply_mutation_height, andb_true_iff, negb_true_iff. tauto.
Qed.

(** C7. [find_image_position] raises its error, [ValueError("Object height
    not set")], exactly when the object height is unset, which for a system
    built from [OpticalSystem()] by mutation calls means that
    [set_object_height] was never among them.  Once a height is set, whatever
    its value, the query returns a result; and on an unset height the outcome
    is the error, not the result for height 0.  The sort has no part in
    this. *)
Theorem find_image_position_requires_height :
  forall (list_sort : list spread_sample -> list spread_sample)
         (calls : list mutation) (rays : list (R * R)),
    let s := built calls in
    (object_height s = None <->
     forallb (fun c => negb (is_set_object_height c)) calls = true) /\
    (find_image_position list_sort rays s
     = (Raise (ValueError "Object height not set"), s) <->
     object_height s = None) /\
    (forall e, fst (find_image_position list_sort rays s) = Raise e ->
               object_height s = None /\ e = ValueError "Object height not set") /\
    (forall h, exists v,
        find_image_position list_sort rays (snd (set_object_height h s))
        = (Ok v, snd (set_object_height h s))) /\
    (forall h, object_height s = Some h ->
               exists v, find_image_position list_sort rays s = (Ok v, s)) /\
    (exists v,
        fst (find_image_position list_sort rays (with_object_height (Some 0) s)) = Ok v).
Proof.
  intros list_sort calls rays s.
  assert (Hset : forall (t : OpticalSystem) (h : R),
             object_height t = Some h ->
             exists v, find_image_position list_sort rays t = (Ok v, t)).
  { intros t h Hh. eexists. apply (find_image_position_run list_sort t h rays Hh). }
  pose proof (find_image_position_unset list_sort s rays) as Hunset.
  split; [| split; [| split; [| split; [| split]]]].
  - unfold s, built. rewrite apply_mutations_height. simpl. tauto.
  - split; [| exact Hunset].
    intros Hr. destruct (object_height s) as [h|] eqn:Hh; [| reflexivity].
    destruct (Hset s h Hh) as [v Hv]. congruence.
  - intros e He. destruct (object_height s) as [h|] eqn:Hh.
    + destruct (Hset s h Hh) as [v Hv]. rewrite Hv in He. discriminate.
    + rewrite (Hunset eq_refl) in He. simpl in He. split; congruence.
  - intros h. apply (Hset _ h). reflexivity.
  - intros h Hh. apply (Hset s h Hh).
  - destruct (Hset (with_object_height (Some 0) s) 0 eq_refl) as [v Hv].
    exists v. rewrite Hv. reflexivity.
Qed.

(** The query on a fresh system, and on the same system once the height is
    set to 0. *)
Example unset_height_is_an_error :
  fst (find_image_position py_sort [(0, 0)] init)
  = Raise (ValueError "Object height not set") /\
  fst (find_image_position py_sort [(0, 0)] (built [SetObjectHeight 0]))
  = Ok (None, None, None, None).
Proof.
  split; [reflexivity|].
  rewrite (find_image_position_run _ _ 0) by reflexivity.
  unfold convergence, multi_point_paths, base_rays, tip_rays; simpl.
  rbool. reflexivity.
Qed.

(** ** What the queries change *)


Lemma marginal_loop_frame (s : OpticalSystem) :
  forall (fuel : nat) (st : search_state),
    snd (marginal_loop fuel st s) = s \/
    exists a, path_passes s (trace_path s (tan (deg_to_rad a)) 0) = false /\
              snd (marginal_loop fuel st s)
              = after_failure s (trace_path s (tan (deg_to_rad a)) 0).
Proof.
  induction fuel as [|fuel IH]; intros st; [left; reflexivity|].
  cbn [marginal_loop].
  destruct (path_passes s (trace_path s (tan (deg_to_rad (current_angle st))) 0))
    eqn:Hp.
  - erewrite bind_ok; [| apply marginal_body_pass; exact Hp]. apply IH.
  - erewrite bind_ok; [| apply marginal_body_fail; exact Hp].
    right. exists (current_angle st). split; [exact Hp | reflexivity].
Qed.


(** *** The marker and the blocking element *)







(** ** Zero focal length *)

(** The engine's own mutation takes a power and accepts every real. *)
Lemma add_refraction_total (position power diameter : R) (s : OpticalSystem) :
  add_refraction position power diameter s
  = (Ok tt, mkSystem (matrices s ++ [(refraction, refraction_matrix power, 0)])
                     (optical_elements s ++ [(lens, position, diameter)])
                     (object_height s) (STOP_optic s)).
Proof. reflexivity. Qed.

(** C6, as the specification states it, fails: the engine raises nothing.
    In the wizard a focal length of zero raises [ZeroDivisionError] inside
    the [try] block; [add_condition] itself returns, with the error box, and
    the system is untouched.  No call of the engine's [add_refraction] fails:
    it is handed a power and takes any. *)
Lemma zero_focal_length_not_an_engine_error :
  add_condition_try Refraction [Number 0; Number 6] wizard_init
  = (Raise ZeroDivisionError, wizard_init) /\
  add_condition Refraction [Number 0; Number 6] wizard_init
  = (Ok (ErrorBox "Error" "Focal length cannot be zero"), wizard_init) /\
  system (snd (add_condition Refraction [Number 0; Number 6] wizard_init)) = init /\
  (forall (position power diameter : R) (s : OpticalSystem),
      fst (add_refraction position power diameter s) = Ok tt).
Proof.
  assert (Hz : Reqb 0 0 = true) by (apply Reqb_true; reflexivity).
  split; [| split; [| split]].
  - unfold add_condition_try, bind, param, float, py_div, ret, raise; simpl.
    rewrite Hz. reflexivity.
  - unfold add_condition, try_except, add_condition_try, bind, param, float,
      py_div, ret, raise; simpl.
    rewrite Hz. reflexivity.
  - unfold add_condition, try_except, add_condition_try, bind, param, float,
      py_div, ret, raise; simpl.
    rewrite Hz. reflexivity.
  - reflexivity.
Qed.

(** C6, as the code has it.  The focal length is a notion of the wizard.  A
    refraction requested there with focal length exactly zero fails with
    [ZeroDivisionError] when [power = 1.0 / focal_length] is computed, before
    [add_refraction] is called: no matrix is built, no element is added, the
    wizard and its system stay as they were, and the user is told "Focal
    length cannot be zero".  Whatever is entered, the request either leaves
    the ops untouched or appends the refraction matrix of the power [1.0 / f]
    for a nonzero [f].  The engine's [add_refraction] is handed the power and
    never fails. *)
Theorem zero_focal_length_rejected :
  forall (g : OpticalSystemGUI) (diam : R) (more : list entry_text),
    (forall (position power diameter : R) (s : OpticalSystem),
        fst (add_refraction position power diameter s) = Ok tt) /\
    add_condition_try Refraction (Number 0 :: Number diam :: more) g
    = (Raise ZeroDivisionError, g) /\
    add_condition Refraction (Number 0 :: Number diam :: more) g
    = (Ok (ErrorBox "Error" "Focal length cannot be zero"), g) /\
    (forall t, snd (add_condition Refraction (Number 0 :: t :: more) g) = g) /\
    (forall params,
        let g' := snd (add_condition Refraction params g) in
        g' = g \/
        exists f d,
          f <> 0 /\
          nth_error params 0 = Some (Number f) /\
          nth_error params 1 = Some (Number d) /\
          matrices (system g')
          = matrices (system g) ++ [(refraction, refraction_matrix (1.0 / f), 0)] /\
          optical_elements (system g')
          = optical_elements (system g) ++ [(lens, current_position g, d)]).
Proof.
  intros g diam more.
  assert (Hz : Reqb 0 0 = true) by (apply Reqb_true; reflexivity).
  split; [reflexivity|].
  split; [| split; [| split]].
  - unfold add_condition_try, bind, param, float, py_div, ret, raise; simpl.
    rewrite Hz. reflexivity.
  - unfold add_condition, try_except, add_condition_try, bind, param, float,
      py_div, ret, raise; simpl.
    rewrite Hz. reflexivity.
  - intros [d|]; unfold add_condition, try_except, add_condition_try, bind,
      param, float, py_div, ret, raise; simpl; [rewrite Hz|]; reflexivity.
  - intros params g'. unfold g'.
    unfold add_condition, try_except, add_condition_try, bind, param, float,
      py_div, ret, raise.
    destruct params as [|[f|] [|[d|] params]]; simpl; auto.
    destruct (Reqb f 0) eqn:Hf; simpl; auto.
    apply Reqb_false in Hf.
    right. exists f, d. destruct g as [sys oh cs pos]; simpl. auto.
Qed.

(** A focal length of 6 cm at position 12 is accepted, and the power of the
    new op is 1/6. *)
Example nonzero_focal_length_accepted :
  matrices (system (snd (add_condition Refraction [Number 6; Number 6]
                                       (mkGUI init 4 [] 12))))
  = [(refraction, refraction_matrix (1.0 / 6), 0)].
Proof.
  unfold add_condition, try_except, add_condition_try, bind, param, float,
    py_div, ret, raise; simpl.
  rbool. reflexivity.
Qed.

(** * Further properties of the engine *)

(** ** Building a system *)

Lemma apply_mutations_app (c1 c2 : list mutation) (s : OpticalSystem) :
  snd (apply_mutations (c1 ++ c2) s)
  = snd (apply_mutations c2 (snd (apply_mutations c1 s))).
Proof.
  revert s. induction c1 as [|c c1 IH]; intros s; [reflexivity|].
  cbn [app apply_mutations].
  erewrite !bind_ok by apply apply_mutation_ok. apply IH.
Qed.

Lemma apply_mutations_extends (calls : list mutation) :
  forall s : OpticalSystem,
  exists ms es,
    matrices (snd (apply_mutations calls s)) = matrices s ++ ms /\
    optical_elements (snd (apply_mutations calls s)) = optical_elements s ++ es /\
    STOP_optic (snd (apply_mutations calls s)) = STOP_optic s /\
    Forall built_entry ms /\
    length (filter is_refraction ms) = length (filter is_lens es).
Proof.
  induction calls as [|c calls IH]; intros s.
  - exists [], []. simpl. rewrite !app_nil_r. repeat split; constructor.
  - cbn [apply_mutations]. erewrite bind_ok by apply apply_mutation_ok.
    destruct (IH (snd (apply_mutation c s))) as (ms & es & Hm & He & Hs & Hb & Hn).
    rewrite Hm, He, Hs.
    destruct c as [h | d | pos P d | pos d]; simpl.
    + exists ms, es. repeat split; auto.
    + exists ((transfer, transfer_matrix d, d) :: ms), es.
      rewrite <- app_assoc. repeat split; auto.
      constructor; [left; exists d; reflexivity | exact Hb].
    + exists ((refraction, refraction_matrix P, 0) :: ms), ((lens, pos, d) :: es).
      rewrite <- !app_assoc. repeat split; auto.
      * constructor; [right; exists P; reflexivity | exact Hb].
      * simpl. rewrite Hn. reflexivity.
    + exists ms, ((iris, pos, d) :: es).
      rewrite <- app_assoc. repeat split; auto.
Qed.

(** X1. The mutation calls only append: after any further calls, the ops
    and the elements a system had are still there, in the same order, at the
    head of the lists, and the stop marker is untouched. *)
Theorem mutations_append_only :
  forall (before after : list mutation),
  exists ms es,
    matrices (built (before ++ after)) = matrices (built before) ++ ms /\
    optical_elements (built (before ++ after))
    = optical_elements (built before) ++ es /\
    STOP_optic (built (before ++ after)) = None.
Proof.
  intros before after. unfold built. rewrite apply_mutations_app.
  destruct (apply_mutations_extends after (snd (apply_mutations before init)))
    as (ms & es & Hm & He & Hs & _).
  exists ms, es. rewrite Hm, He, Hs. repeat split.
  destruct (apply_mutations_extends before init) as (_ & _ & _ & _ & Hs' & _).
  exact Hs'.
Qed.

(** X2. In a system built by mutation calls every op is a transfer
    [[[1, d], [0, 1]]] of distance [d] or a refraction [[[1, 0], [-P, 1]]]
    of distance 0, and there are as many lens elements as refraction ops. *)
Theorem built_system_well_formed :
  forall calls : list mutation,
    Forall built_entry (matrices (built calls)) /\
    length (filter is_refraction (matrices (built calls)))
    = length (filter is_lens (optical_elements (built calls))).
Proof.
  intros calls. unfold built.
  destruct (apply_mutations_extends calls init) as (ms & es & Hm & He & _ & Hb & Hn).
  rewrite Hm, He. simpl. auto.
Qed.

(** ** The shape of a traced path *)

Lemma trace_loop_extends (els : list element) (ms : list matrix_entry) :
  forall st, exists ext, path (trace_loop els ms st) = path st ++ ext.
Proof.
  induction ms as [|[[kind mat] d] ms IH]; intros st.
  - exists []. simpl. rewrite app_nil_r. reflexivity.
  - cbn [trace_loop]. case_if.
    + eexists. reflexivity.
    + destruct (IH (apply_op (kind, mat, d) st)) as [ext Hext].
      rewrite Hext. simpl. rewrite <- app_assoc. eexists. reflexivity.
Qed.

Section TraceLoop.

Variable els : list element.

Lemma trace_loop_positions (ms : list matrix_entry) :
  forall st, exists k,
    (k <= length ms)%nat /\
    map fst (path (trace_loop els ms st))
    = map fst (path st) ++ firstn k (positions (current_z st) (map entry_distance ms)).
Proof.
  induction ms as [|[[kind mat] d] ms IH]; intros st.
  - exists 0%nat. simpl. rewrite app_nil_r. auto.
  - cbn [trace_loop]. case_if.
    + exists 1%nat. split; [simpl; lia|].
      simpl. rewrite map_app. reflexivity.
    + destruct (IH (apply_op (kind, mat, d) st)) as (k & Hk & Hpos).
      exists (S k). split; [simpl; lia|].
      rewrite Hpos. simpl. rewrite map_app, <- app_assoc. reflexivity.
Qed.

Lemma trace_loop_last (ms : list matrix_entry) :
  forall st, ms <> [] ->
    last (path (trace_loop els ms st)) (0, 0)
    = (current_z (trace_loop els ms st), fst (ray (trace_loop els ms st))).
Proof.
  induction ms as [|m ms IH]; intros st Hne; [congruence|].
  cbn [trace_loop]. case_if; [apply apply_op_last|].
  destruct ms as [|m' ms]; [apply apply_op_last|].
  apply IH. discriminate.
Qed.

(** Without elements nothing is blocked. *)
Lemma trace_loop_free (ms : list matrix_entry) :
  forall st,
    length (path (trace_loop [] ms st)) = (length (path st) + length ms)%nat /\
    exists rest, path (trace_loop [] ms st) = path (trace_loop els ms st) ++ rest.
Proof.
  induction ms as [|[[kind mat] d] ms IH]; intros st.
  - simpl. split; [lia|]. exists []. rewrite app_nil_r. reflexivity.
  - cbn [trace_loop blocked].
    destruct (IH (apply_op (kind, mat, d) st)) as [Hlen [rest Hrest]].
    split.
    + rewrite Hlen. simpl. rewrite length_app. simpl. lia.
    + case_if; [| exists rest; exact Hrest].
      apply trace_loop_extends.
Qed.

End TraceLoop.

(** X3. Every traced path starts with the sample [(0, y0)], has one sample
    per op it went through and so between 1 and [1 + len(matrices)] samples,
    and its axial positions are the running sums of the op distances. *)
Theorem trace_ray_path_shape :
  forall (s : OpticalSystem) (w0 y0 : R),
  exists (k : nat) (rest : ray_path),
    (k <= length (matrices s))%nat /\
    trace_path s w0 y0 = (0, y0) :: rest /\
    length rest = k /\
    map fst rest = firstn k (positions 0 (distances s)).
Proof.
  intros s w0 y0. unfold trace_path, trace_final.
  destruct (trace_loop_positions (optical_elements s) (matrices s) (trace_init w0 y0))
    as (k & Hk & Hpos).
  destruct (trace_loop_extends (optical_elements s) (matrices s) (trace_init w0 y0))
    as (rest & Hrest).
  exists k, rest. rewrite Hrest in Hpos |- *. simpl in Hpos |- *.
  injection Hpos as Hpos.
  split; [exact Hk|]. split; [reflexivity|]. split; [| exact Hpos].
  transitivity (length (map fst rest)); [symmetry; apply length_map|].
  rewrite Hpos, length_firstn.
  assert (Hlen : forall z ds, length (positions z ds) = length ds).
  { intros z ds; revert z; induction ds; intros z; simpl; auto. }
  rewrite Hlen. unfold distances. rewrite length_map. lia.
Qed.

(** X4. Vignetting only cuts a path short: the path traced with the
    elements is an initial part of the path traced through the same ops with
    no element at all, and that one has exactly [1 + len(matrices)]
    samples. *)
Theorem vignetting_truncates :
  forall (s : OpticalSystem) (w0 y0 : R),
    length (trace_path (without_elements s) w0 y0) = S (length (matrices s)) /\
    exists rest,
      trace_path (without_elements s) w0 y0 = trace_path s w0 y0 ++ rest.
Proof.
  intros s w0 y0. unfold trace_path, trace_final, without_elements; simpl.
  destruct (trace_loop_free (optical_elements s) (matrices s) (trace_init w0 y0))
    as [Hlen Hrest].
  split; [rewrite Hlen; reflexivity | exact Hrest].
Qed.

(** ** Linearity *)

Lemma apply_op_scale (c : R) (m : matrix_entry) (st : trace_state) :
  apply_op m (scale_state c st) = scale_state c (apply_op m st).
Proof.
  destruct st as [[y w] z p], m as [[kind [[a b] [c1 d1]]] d].
  unfold apply_op, scale_state, scale_path; simpl.
  rewrite map_app; simpl.
  repeat (f_equal; try ring).
Qed.

Lemma blocks_scale (c : R) (e : element) (z y : R) :
  1 <= Rabs c -> blocks e z y = true -> blocks e z (c * y) = true.
Proof.
  destruct e as [[k pos] d]. rewrite !blocks_spec. intros Hc [Hpos Hy].
  split; [exact Hpos|].
  rewrite Rabs_mult. pose proof (Rabs_pos y). nra.
Qed.

Lemma blocked_scale (c : R) (els : list element) (z y : R) :
  1 <= Rabs c -> blocked els z y = true -> blocked els z (c * y) = true.
Proof.
  intros Hc. rewrite !blocked_spec. intros (e & Hin & Hb).
  exists e. split; [exact Hin | apply blocks_scale; assumption].
Qed.

Lemma blocked_unit_scale (c : R) (els : list element) (z y : R) :
  Rabs c = 1 -> blocked els z (c * y) = blocked els z y.
Proof.
  intros Hc. induction els as [|[[k pos] d] els IH]; simpl; [reflexivity|].
  rewrite IH, Rabs_mult, Hc, Rmult_1_l. reflexivity.
Qed.

Lemma trace_loop_unit_scale (c : R) (els : list element) (ms : list matrix_entry) :
  Rabs c = 1 ->
  forall st, trace_loop els ms (scale_state c st) = scale_state c (trace_loop els ms st).
Proof.
  intros Hc. induction ms as [|m ms IH]; intros st; [reflexivity|].
  cbn [trace_loop]. rewrite apply_op_scale.
  change (fst (ray (scale_state c (apply_op m st))))
    with (c * fst (ray (apply_op m st))).
  change (current_z (scale_state c (apply_op m st))) with (current_z (apply_op m st)).
  rewrite blocked_unit_scale by exact Hc.
  case_if; [reflexivity | apply IH].
Qed.

Lemma trace_loop_scale (c : R) (els : list element) (ms : list matrix_entry) :
  1 <= Rabs c ->
  forall st, exists n,
    (length (path st) <= n <= length (path (trace_loop els ms st)))%nat /\
    path (trace_loop els ms (scale_state c st))
    = scale_path c (firstn n (path (trace_loop els ms st))).
Proof.
  intros Hc. induction ms as [|m ms IH]; intros st.
  - exists (length (path st)). simpl. rewrite firstn_all. auto.
  - cbn [trace_loop]. rewrite apply_op_scale.
    change (fst (ray (scale_state c (apply_op m st))))
      with (c * fst (ray (apply_op m st))).
    change (current_z (scale_state c (apply_op m st))) with (current_z (apply_op m st)).
    assert (Hgrow : (length (path st) <= length (path (apply_op m st)))%nat).
    { destruct m as [[k mat] d]; simpl. rewrite length_app. lia. }
    destruct (blocked els (current_z (apply_op m st)) (c * fst (ray (apply_op m st))))
      eqn:Hbc.
    + exists (length (path (apply_op m st))).
      destruct (blocked els (current_z (apply_op m st)) (fst (ray (apply_op m st)))).
      * rewrite firstn_all. simpl. split; [lia | reflexivity].
      * destruct (trace_loop_extends els ms (apply_op m st)) as [ext Hext].
        rewrite Hext, firstn_app, firstn_all, Nat.sub_diag, length_app.
        simpl. rewrite app_nil_r. split; [lia | reflexivity].
    + destruct (blocked els (current_z (apply_op m st)) (fst (ray (apply_op m st))))
        eqn:Hb.
      * apply (blocked_scale c) in Hb; [congruence | exact Hc].
      * destruct (IH (apply_op m st)) as (n & Hn & Hpath).
        exists n. split; [lia | exact Hpath].
Qed.

Lemma trace_init_scale (c w0 y0 : R) :
  trace_init (c * w0) (c * y0) = scale_state c (trace_init w0 y0).
Proof. unfold trace_init, scale_state, scale_path; simpl. repeat (f_equal; try ring). Qed.

(** X5. Reflecting a ray in the optical axis reflects its path: the ray
    launched at [(-w0, -y0)] goes through the same positions as the ray
    launched at [(w0, y0)], with opposite heights, and is stopped at the same
    element. *)
Theorem trace_ray_mirror :
  forall (s : OpticalSystem) (w0 y0 : R),
    trace_path s (- w0) (- y0) = mirror (trace_path s w0 y0).
Proof.
  intros s w0 y0. unfold trace_path, trace_final.
  replace (- w0) with (-1 * w0) by ring. replace (- y0) with (-1 * y0) by ring.
  rewrite trace_init_scale, trace_loop_unit_scale by rsolve.
  unfold scale_state, scale_path, mirror; simpl.
  apply map_ext. intros [z y]; simpl. f_equal. ring.
Qed.

(** X6. Multiplying the launch height and slope of a ray by a factor of
    absolute value at least 1 never lets it get further: the path of the
    scaled ray is the scaled path of the original ray, cut after some number
    of its samples. *)
Theorem steeper_ray_stops_no_later :
  forall (s : OpticalSystem) (c w0 y0 : R),
    1 <= Rabs c ->
    exists n : nat,
      (1 <= n <= length (trace_path s w0 y0))%nat /\
      trace_path s (c * w0) (c * y0) = scale_path c (firstn n (trace_path s w0 y0)) /\
      (length (trace_path s (c * w0) (c * y0)) <= length (trace_path s w0 y0))%nat.
Proof.
  intros s c w0 y0 Hc. unfold trace_path, trace_final.
  rewrite trace_init_scale.
  destruct (trace_loop_scale c (optical_elements s) (matrices s) Hc (trace_init w0 y0))
    as (n & Hn & Hpath).
  exists n. simpl in Hn. split; [lia|]. split; [exact Hpath|].
  rewrite Hpath. unfold scale_path. rewrite length_map, length_firstn. lia.
Qed.

Lemma steeper_ray_stops_no_later_witness :
  exists n : nat,
    (1 <= n <= length (trace_path iris_system 0.6 0))%nat /\
    trace_path iris_system (2 * 0.6) (2 * 0)
    = scale_path 2 (firstn n (trace_path iris_system 0.6 0)) /\
    (length (trace_path iris_system (2 * 0.6) (2 * 0))
     <= length (trace_path iris_system 0.6 0))%nat.
Proof.
  apply (steeper_ray_stops_no_later iris_system 2 0.6 0).
  rewrite Rabs_pos_eq; lra.
Defined.

(** ** Cascades *)

Lemma transfers_loop (els : list element) (ds : list R) :
  forall st,
    length (path (trace_loop els (map (fun d => (transfer, transfer_matrix d, d)) ds) st))
    = (length (path st) + length ds)%nat ->
    ray (trace_loop els (map (fun d => (transfer, transfer_matrix d, d)) ds) st)
    = (fst (ray st) + sum_list ds * snd (ray st), snd (ray st)) /\
    current_z (trace_loop els (map (fun d => (transfer, transfer_matrix d, d)) ds) st)
    = current_z st + sum_list ds.
Proof.
  induction ds as [|d ds IH]; intros [[y w] z p] Hlen.
  - simpl. split; [f_equal|]; ring.
  - cbn [map trace_loop] in *.
    set (st' := apply_op (transfer, transfer_matrix d, d) (mkTrace (y, w) z p)) in *.
    assert (Hst' : st' = mkTrace (1 * y + d * w, 0 * y + 1 * w) (z + d)
                                 (p ++ [(z + d, 1 * y + d * w)])) by reflexivity.
    destruct (blocked els (current_z st') (fst (ray st'))).
    + rewrite Hst' in *. cbn [path ray current_z fst snd length] in *.
      rewrite length_app in Hlen. simpl in Hlen.
      assert (ds = []) by (destruct ds; [reflexivity | simpl in Hlen; lia]).
      subst ds. simpl. split; [f_equal|]; ring.
    + destruct (IH st') as [Hray Hz].
      { rewrite Hlen, Hst'. simpl. rewrite length_app. simpl. lia. }
      rewrite Hray, Hz, Hst'. simpl. split; [f_equal|]; ring.
Qed.

(** X7. A ray that gets through a cascade of transfers [d1, ..., dn]
    (its path has all [n + 1] samples) ends at the axial position
    [d1 + ... + dn] with its slope unchanged and its height raised by the
    slope times that total length. *)
Theorem transfers_add_up :
  forall (ds : list R) (els : list element) (oh : option R)
         (stop : option element) (w0 y0 : R),
    length (trace_path (transfers ds els oh stop) w0 y0) = S (length ds) ->
    ray (trace_final (transfers ds els oh stop) w0 y0) = (y0 + sum_list ds * w0, w0) /\
    current_z (trace_final (transfers ds els oh stop) w0 y0) = sum_list ds /\
    (ds <> [] ->
     last (trace_path (transfers ds els oh stop) w0 y0) (0, 0)
     = (sum_list ds, y0 + sum_list ds * w0)).
Proof.
  intros ds els oh stop w0 y0 Hlen.
  unfold trace_path, trace_final, transfers in *. cbn [matrices optical_elements] in *.
  destruct (transfers_loop els ds (trace_init w0 y0) Hlen) as [Hray Hz].
  simpl in Hray, Hz. rewrite Rplus_0_l in Hz.
  split; [exact Hray|]. split; [exact Hz|].
  intros Hne. rewrite trace_loop_last by (destruct ds; [congruence | discriminate]).
  rewrite Hray, Hz. reflexivity.
Qed.

Lemma transfers_add_up_witness :
  length (trace_path (transfers [10; 2; 2; 10] [] None None) 0.2 4) = 5%nat /\
  last (trace_path (transfers [10; 2; 2; 10] [] None None) 0.2 4) (0, 0)
  = (sum_list [10; 2; 2; 10], 4 + sum_list [10; 2; 2; 10] * 0.2).
Proof.
  assert (H : length (trace_path (transfers [10; 2; 2; 10] [] None None) 0.2 4)
              = 5%nat) by reflexivity.
  split; [exact H|].
  apply (transfers_add_up [10; 2; 2; 10] [] None None 0.2 4 H). discriminate.
Defined.

(** X8. Thin-lens imaging.  In a system of a transfer [a], a refraction of
    power [P] and a transfer [b] with [a + b = a * b * P] (that is,
    [1/a + 1/b = P]), every ray from height [y0] that gets through arrives at
    the same point whatever its slope: at [z = a + b], at height
    [(1 - b * P) * y0], which is [- b / a] times the object height. *)
Theorem thin_lens_imaging :
  forall (a b P : R) (els : list element) (oh : option R)
         (stop : option element) (w0 y0 : R),
    let s := mkSystem [(transfer, transfer_matrix a, a);
                       (refraction, refraction_matrix P, 0);
                       (transfer, transfer_matrix b, b)] els oh stop in
    a + b = a * b * P ->
    length (trace_path s w0 y0) = 4%nat ->
    last (trace_path s w0 y0) (0, 0) = (a + b, (1 - b * P) * y0) /\
    a * ((1 - b * P) * y0) = - b * y0.
Proof.
  intros a b P els oh stop w0 y0 s Himg Hlen.
  split.
  2:{ replace (a * ((1 - b * P) * y0)) with ((a - a * b * P) * y0) by ring.
      rewrite <- Himg. ring. }
  unfold trace_path, trace_final, s in *.
  cbn [matrices optical_elements trace_loop] in *.
  repeat match type of Hlen with
         | context [if ?c then _ else _] =>
             destruct c; [simpl in Hlen; discriminate|]
         end.
  simpl in Hlen |- *.
  repeat match goal with
         | |- context [if ?c then _ else _] => destruct c
         end; simpl;
    (f_equal;
     [ ring
     | transitivity ((1 - b * P) * y0 + (a + b - a * b * P) * w0);
       [ring | rewrite Himg; ring] ]).
Qed.

Lemma thin_lens_imaging_witness :
  last (trace_path (mkSystem [(transfer, transfer_matrix 12, 12);
                              (refraction, refraction_matrix (1 / 6), 0);
                              (transfer, transfer_matrix 12, 12)] [] (Some 4) None)
                   0.1 4) (0, 0)
  = (12 + 12, (1 - 12 * (1 / 6)) * 4) /\
  12 * ((1 - 12 * (1 / 6)) * 4) = - 12 * 4.
Proof.
  apply (thin_lens_imaging 12 12 (1 / 6) [] (Some 4) None 0.1 4).
  - lra.
  - reflexivity.
Defined.

(** ** More on the marginal-ray search *)

Lemma passes_upto (s : OpticalSystem) (n : nat) :
  (forall j, (1 <= j <= n)%nat -> passes s j = true) \/
  (exists K, (1 <= K <= n)%nat /\ passes s K = false).
Proof.
  induction n as [|n [IH | (K & HK & Hf)]].
  - left. intros j Hj. lia.
  - destruct (passes s (S n)) eqn:Hn.
    + left. intros j Hj.
      destruct (Nat.eq_dec j (S n)) as [-> | Hne]; [exact Hn | apply IH; lia].
    + right. exists (S n). split; [lia | exact Hn].
  - right. exists K. split; [lia | exact Hf].
Qed.

Lemma candidate_positive (k : nat) : (1 <= k)%nat -> 0 < candidate k.
Proof.
  intros Hk. unfold candidate, angle_step.
  apply le_INR in Hk. simpl in Hk. nra.
Qed.

(** X9. Whatever the system and however long the loop is run, the search
    raises no exception: it is either still running, every candidate so far
    having passed and the system being untouched, or it has returned at the
    first failing candidate, with an empty list or with exactly one pair of a
    positive angle and the path traced at that angle, a path the loop
    classified as passed. *)
Theorem find_marginal_rays_outcomes :
  forall (s : OpticalSystem) (fuel : nat),
    (find_marginal_rays fuel s = (OutOfFuel, s) /\
     forall j, (1 <= j <= fuel)%nat -> passes s j = true) \/
    (exists k0,
        (1 <= k0 <= fuel)%nat /\
        passes s k0 = false /\
        find_marginal_rays fuel s
        = (Ok (result_at s k0), after_failure s (candidate_path s k0)) /\
        (length (result_at s k0) <= 1)%nat /\
        forall a p, In (a, p) (result_at s k0) ->
                    0 < a /\ path_passes s p = true /\
                    p = trace_path s (tan (deg_to_rad a)) 0).
Proof.
  intros s fuel. destruct (passes_upto s fuel) as [Hall | (K & HK & Hf)].
  - left. split; [| exact Hall].
    apply (find_marginal_rays_running s (S fuel)); [| lia].
    intros j Hj. apply Hall. lia.
  - right. destruct (first_failure s K) as (k0 & Hk0 & Hfail & Hpass);
      [lia | exact Hf |].
    exists k0. split; [lia|]. split; [exact Hfail|].
    split; [apply find_marginal_rays_returns; auto; lia|].
    destruct k0 as [|[|k]]; simpl; split; try lia; try tauto.
    intros a p [[= <- <-] | []].
    split; [apply candidate_positive; lia|].
    split; [apply (Hpass (S k)); lia | reflexivity].
Qed.

Lemma fold_left_Rplus (l : list R) (a : R) : fold_left Rplus l a = a + sum_list l.
Proof.
  revert a. induction l as [|x l IH]; intros a; simpl; [ring|].
  rewrite IH. ring.
Qed.

Lemma total_distance_nonneg_ops (ms : list matrix_entry) :
  Forall (fun m => 0 <= entry_distance m) ms ->
  total_distance_of ms = sum_list (map entry_distance ms).
Proof.
  intros H. unfold total_distance_of. rewrite fold_left_Rplus, Rplus_0_l.
  induction H as [|m ms Hm _ IH]; [reflexivity|].
  cbn [filter map sum_list fold_right]. fold (sum_list (map entry_distance ms)).
  destruct (Rltb 0 (entry_distance m)) eqn:Hb.
  - cbn [map sum_list fold_right]. unfold sum_list in IH. rewrite IH. reflexivity.
  - apply Rltb_false in Hb. unfold sum_list in IH |- *. rewrite IH. lra.
Qed.

Lemma full_path_position (els : list element) (ms : list matrix_entry) :
  forall st,
    length (path (trace_loop els ms st)) = (length (path st) + length ms)%nat ->
    current_z (trace_loop els ms st) = current_z st + sum_list (map entry_distance ms).
Proof.
  induction ms as [|[[kind mat] d] ms IH]; intros st Hlen.
  - simpl. ring.
  - cbn [trace_loop] in *.
    assert (Hp : length (path (apply_op (kind, mat, d) st)) = S (length (path st))).
    { simpl. rewrite length_app. simpl. lia. }
    destruct (blocked els _ _).
    + rewrite Hp in Hlen. simpl in Hlen.
      assert (ms = []) by (destruct ms; [reflexivity | simpl in Hlen; lia]).
      subst ms. simpl. unfold entry_distance; simpl. ring.
    + rewrite IH by (rewrite Hlen, Hp; simpl; lia).
      simpl. unfold entry_distance; simpl. ring.
Qed.

(** X10. With no negative distance in the system, a ray whose path has a
    sample for every op is classified as passed by the marginal-ray loop;
    this includes the ray that the element at the very end of the system
    blocks. *)
Theorem ray_reaching_last_op_passes :
  forall (s : OpticalSystem) (w0 y0 : R),
    matrices s <> [] ->
    Forall (fun m => 0 <= entry_distance m) (matrices s) ->
    length (trace_path s w0 y0) = S (length (matrices s)) ->
    final_z (trace_path s w0 y0) = total_distance s /\
    path_passes s (trace_path s w0 y0) = true.
Proof.
  intros s w0 y0 Hne Hpos Hlen.
  assert (Hz : final_z (trace_path s w0 y0) = total_distance s).
  { unfold final_z, trace_path, trace_final in *.
    rewrite trace_loop_last by exact Hne. cbn [fst].
    rewrite full_path_position by exact Hlen.
    unfold total_distance. rewrite total_distance_nonneg_ops by exact Hpos.
    simpl. ring. }
  split; [exact Hz|].
  unfold path_passes, reaches_end. rewrite Hz, Hlen.
  replace (total_distance s - total_distance s) with 0 by ring.
  rewrite Rabs_R0.
  replace (Rltb 1e-10 0) with false by (symmetry; apply Rltb_false; lra).
  destruct (matrices s); [congruence | reflexivity].
Qed.

Lemma ray_reaching_last_op_passes_witness :
  blocked [(iris, 1, 0.2)] 1 1 = true /\
  final_z (trace_path (mkSystem [(transfer, transfer_matrix 1, 1)]
                                [(iris, 1, 0.2)] None None) 1 0)
  = total_distance (mkSystem [(transfer, transfer_matrix 1, 1)]
                             [(iris, 1, 0.2)] None None) /\
  path_passes (mkSystem [(transfer, transfer_matrix 1, 1)] [(iris, 1, 0.2)] None None)
    (trace_path (mkSystem [(transfer, transfer_matrix 1, 1)]
                          [(iris, 1, 0.2)] None None) 1 0) = true.
Proof.
  split; [simpl; rbool; reflexivity|].
  apply (ray_reaching_last_op_passes
           (mkSystem [(transfer, transfer_matrix 1, 1)] [(iris, 1, 0.2)] None None) 1 0).
  - discriminate.
  - repeat constructor. unfold entry_distance; simpl. lra.
  - unfold trace_path, trace_final; simpl. case_if; reflexivity.
Defined.

(** X11. A system with a single op of non-negative distance (a lone lens,
    or one stretch of free space whatever irises are registered) gives every
    candidate a two-sample path ending at the total length, so the search
    never returns. *)
Theorem single_op_search_never_returns :
  forall (m : matrix_entry) (els : list element) (oh : option R)
         (stop : option element) (fuel : nat),
    0 <= entry_distance m ->
    find_marginal_rays fuel (mkSystem [m] els oh stop)
    = (OutOfFuel, mkSystem [m] els oh stop).
Proof.
  intros m els oh stop fuel Hd.
  apply (find_marginal_rays_running _ (S fuel)); [| lia].
  intros j _. unfold passes, candidate_path.
  set (w := tan (deg_to_rad (candidate j))).
  assert (Hp : exists y, trace_path (mkSystem [m] els oh stop) w 0
                         = [(0, 0); (0 + entry_distance m, y)]).
  { unfold trace_path, trace_final. cbn [matrices optical_elements trace_loop].
    destruct m as [[kind mat] d]. eexists. case_if; reflexivity. }
  destruct Hp as [y Hp]. unfold path_passes, reaches_end. rewrite Hp.
  unfold final_z, total_distance, total_distance_of.
  cbn [matrices filter length Nat.ltb Nat.leb negb andb last fst].
  apply negb_true_iff, Rltb_false.
  destruct (Rltb 0 (entry_distance m)) eqn:Hb; cbn [map fold_left].
  - replace (0 + entry_distance m - (0 + entry_distance m)) with 0 by ring.
    rewrite Rabs_R0. lra.
  - apply Rltb_false in Hb.
    replace (0 + entry_distance m - 0) with 0 by lra. rewrite Rabs_R0. lra.
Qed.

Lemma single_op_search_never_returns_witness :
  find_marginal_rays 1000 (mkSystem [(transfer, transfer_matrix 10, 10)]
                                      [(iris, 10, 6)] (Some 4) None)
  = (OutOfFuel, mkSystem [(transfer, transfer_matrix 10, 10)]
                         [(iris, 10, 6)] (Some 4) None).
Proof.
  apply (single_op_search_never_returns (transfer, transfer_matrix 10, 10)
           [(iris, 10, 6)] (Some 4) None 1000).
  unfold entry_distance; simpl. lra.
Defined.

(** X12. The stop marker's tie-break: the element recorded for a position
    is the first element of the registry within 1e-10 of it, whatever comes
    later in the registry; none is recorded exactly when no element is that
    close. *)
Theorem find_stop_first_match :
  forall (els : list element) (fz : R),
    (forall e, find_stop els fz = Some e <->
               exists pre post,
                 els = pre ++ e :: post /\
                 Forall (fun e' => 1e-10 <= Rabs (elem_pos e' - fz)) pre /\
                 Rabs (elem_pos e - fz) < 1e-10) /\
    (find_stop els fz = None <->
     Forall (fun e' => 1e-10 <= Rabs (elem_pos e' - fz)) els).
Proof.
  intros els fz. induction els as [|[[k pos] d] els [IHsome IHnone]].
  - split.
    + intros e. split; [discriminate|].
      intros (pre & post & H & _). destruct pre; discriminate.
    + split; [constructor | reflexivity].
  - cbn [find_stop]. destruct (Rltb (Rabs (pos - fz)) 1e-10) eqn:Hb.
    + apply Rltb_true in Hb. split.
      * intros e. split.
        -- intros [= <-]. exists [], els. repeat split; [constructor | exact Hb].
        -- intros (pre & post & Heq & Hfar & Hnear).
           destruct pre as [|e' pre]; simpl in Heq.
           ++ injection Heq as <- _. reflexivity.
           ++ injection Heq as <- _. inversion Hfar as [|? ? Hfar' _]; subst.
              unfold elem_pos in Hfar'; simpl in Hfar'. lra.
      * split; [discriminate|].
        intros H. inversion H as [|? ? Hfar _]; subst.
        unfold elem_pos in Hfar; simpl in Hfar. lra.
    + apply Rltb_false in Hb. split.
      * intros e. rewrite IHsome. split.
        -- intros (pre & post & -> & Hfar & Hnear).
           exists ((k, pos, d) :: pre), post. repeat split; auto.
        -- intros (pre & post & Heq & Hfar & Hnear).
           destruct pre as [|e' pre]; simpl in Heq.
           ++ injection Heq as <- _. unfold elem_pos in Hnear; simpl in Hnear. lra.
           ++ injection Heq as _ ->. inversion Hfar; subst.
              exists pre, post. auto.
      * rewrite IHnone. split.
        -- intros H. constructor; [exact Hb | exact H].
        -- intros H. inversion H; assumption.
Qed.

(** ** More on the image-position search *)

Lemma total_distance_of_nonneg (ms : list matrix_entry) : 0 <= total_distance_of ms.
Proof.
  unfold total_distance_of. rewrite fold_left_Rplus, Rplus_0_l.
  induction ms as [|m ms IH]; [simpl; lra|].
  cbn [filter]. destruct (Rltb 0 (entry_distance m)) eqn:Hb; [| exact IH].
  apply Rltb_true in Hb. cbn [map sum_list fold_right].
  unfold sum_list in IH. lra.
Qed.

Lemma INR_999 : INR 999 = 999.
Proof. rewrite INR_IZR_INZ. reflexivity. Qed.

Lemma samples_of_In (s : OpticalSystem) (group : list (R * R)) (c : spread_sample) :
  In c (samples_of s group) ->
  exists i, (i < 1000)%nat /\ sample_z c = INR i * (total_distance s / 999).
Proof.
  intros Hin. unfold samples_of in Hin.
  apply collect_spreads_z, linspace_In in Hin.
  destruct Hin as (i & Hi & Hz). exists i. split; [exact Hi|].
  rewrite Hz. change (INR (1000 - 1)) with (INR 999). rewrite INR_999. lra.
Qed.

Lemma samples_of_range (s : OpticalSystem) (group : list (R * R)) (c : spread_sample) :
  In c (samples_of s group) -> 0 <= sample_z c <= total_distance s.
Proof.
  intros Hin. destruct (samples_of_In s group c Hin) as (i & Hi & ->).
  pose proof (total_distance_of_nonneg (matrices s)) as Ht.
  fold (total_distance s) in Ht.
  assert (H0 : 0 <= INR i) by apply pos_INR.
  assert (H1 : INR i <= 999).
  { rewrite <- INR_999. apply le_INR. lia. }
  split; nra.
Qed.

Lemma sorted_samples_perm (list_sort : list spread_sample -> list spread_sample)
      (s : OpticalSystem) (group : list (R * R)) :
  python_sort list_sort ->
  Permutation (sorted_samples list_sort s group) (samples_of s group).
Proof.
  intros [Hperm _]. unfold sorted_samples.
  destruct (samples_of s group); [reflexivity | apply Hperm].
Qed.

Lemma sorted_samples_finite (list_sort : list spread_sample -> list spread_sample)
      (s : OpticalSystem) (group : list (R * R)) :
  python_sort list_sort ->
  Forall finite_sample (samples_of s group) ->
  sorted_samples list_sort s group = py_sort (samples_of s group).
Proof.
  intros [_ Hfin] Hall. unfold sorted_samples.
  destruct (samples_of s group); [reflexivity | apply Hfin; exact Hall].
Qed.

Lemma sorted_samples_range (list_sort : list spread_sample -> list spread_sample)
      (s : OpticalSystem) (group : list (R * R)) (c : spread_sample) :
  python_sort list_sort ->
  In c (sorted_samples list_sort s group) -> 0 <= sample_z c <= total_distance s.
Proof.
  intros Hsort Hin. apply (samples_of_range s group).
  apply (Permutation_in c (sorted_samples_perm list_sort s group Hsort)). exact Hin.
Qed.

(** *** Interpolation along a path *)

Lemma final_z_cons (q q' : sample) (p : ray_path) :
  final_z (q :: q' :: p) = final_z (q' :: p).
Proof. reflexivity. Qed.

Lemma lerp_between (z z1 y1 z2 y2 : R) :
  z1 < z2 -> z1 <= z <= z2 ->
  Rmin y1 y2 <= y1 + (z - z1) / (z2 - z1) * (y2 - y1) <= Rmax y1 y2.
Proof.
  intros Hlt Hz. set (t := (z - z1) / (z2 - z1)).
  assert (Ht : t * (z2 - z1) = z - z1) by (unfold t; field; lra).
  assert (H0 : 0 <= t) by nra.
  assert (H1 : t <= 1) by nra.
  unfold Rmin, Rmax. destruct (Rle_dec y1 y2); split; nra.
Qed.

(** The loop stops at the first pair of consecutive samples that bracket
    [z]; past the first pair, the earlier sample of that pair lies strictly
    before [z]. *)
Lemma interpolate_first_bracket (p : ray_path) (z : R) :
  (2 <= length p)%nat ->
  fst (hd (0, 0) p) <= z <= final_z p ->
  exists (i : nat) (z1 y1 z2 y2 : R),
    nth_error p i = Some (z1, y1) /\
    nth_error p (S i) = Some (z2, y2) /\
    z1 <= z <= z2 /\
    (i <> 0%nat -> z1 < z) /\
    (forall j a b a' b',
        (j < i)%nat -> nth_error p j = Some (a, b) -> nth_error p (S j) = Some (a', b') ->
        ~ a <= z <= a') /\
    interpolate p z
    = Some (if Reqb (z2 - z1) 0 then NaN
            else Fin (y1 + (z - z1) / (z2 - z1) * (y2 - y1))).
Proof.
  induction p as [|[z1 y1] p IH]; intros Hlen Hz; [simpl in Hlen; lia|].
  destruct p as [|[z2 y2] p]; [simpl in Hlen; lia|].
  cbn [interpolate]. cbn [hd fst] in Hz.
  destruct (Rleb z1 z && Rleb z z2) eqn:Hb.
  - apply andb_true_iff in Hb. destruct Hb as [H1 H2].
    apply Rleb_true in H1, H2.
    exists 0%nat, z1, y1, z2, y2.
    split; [reflexivity|]. split; [reflexivity|]. split; [lra|].
    split; [congruence|]. split; [intros; lia | reflexivity].
  - assert (H2 : z2 < z).
    { apply andb_false_iff in Hb. destruct Hb as [Hb | Hb].
      - apply Rleb_false in Hb. lra.
      - apply Rleb_false in Hb. exact Hb. }
    rewrite final_z_cons in Hz.
    destruct IH as (i & a1 & b1 & a2 & b2 & Hi & HSi & Hbr & Hpast & Hfirst & Hint).
    + destruct p; [unfold final_z in Hz; simpl in Hz; lra | simpl; lia].
    + simpl. lra.
    + exists (S i), a1, b1, a2, b2.
      split; [exact Hi|]. split; [exact HSi|]. split; [exact Hbr|].
      split; [| split; [| exact Hint]].
      * intros _. destruct i as [|i]; [| apply Hpast; congruence].
        simpl in Hi. injection Hi as <- _. exact H2.
      * intros j a b a' b' Hj Ha Ha'. destruct j as [|j].
        -- simpl in Ha, Ha'. injection Ha as <- _. injection Ha' as <- _. lra.
        -- apply (Hfirst j a b a' b'); [lia | exact Ha | exact Ha'].
Qed.

(** X18. Interpolation is defined all along a path: for a path of at least
    two samples and a position between the path's first and last positions,
    there are two consecutive samples that bracket the position and a height
    is returned; when the two samples are at different positions it is the
    linear interpolation between them and lies between their heights, and
    when they are at the same position it is nan. *)
Theorem interpolate_covers_path :
  forall (p : ray_path) (z : R),
    (2 <= length p)%nat ->
    fst (hd (0, 0) p) <= z <= final_z p ->
    exists (i : nat) (z1 y1 z2 y2 : R) (h : npfloat),
      nth_error p i = Some (z1, y1) /\
      nth_error p (S i) = Some (z2, y2) /\
      z1 <= z <= z2 /\
      interpolate p z = Some h /\
      (z1 < z2 ->
       h = Fin (y1 + (z - z1) / (z2 - z1) * (y2 - y1)) /\
       Rmin y1 y2 <= y1 + (z - z1) / (z2 - z1) * (y2 - y1) <= Rmax y1 y2) /\
      (z1 = z2 -> h = NaN).
Proof.
  intros p z Hlen Hz.
  destruct (interpolate_first_bracket p z Hlen Hz)
    as (i & z1 & y1 & z2 & y2 & Hi & HSi & Hbr & _ & _ & Hint).
  exists i, z1, y1, z2, y2.
  eexists. split; [exact Hi|]. split; [exact HSi|]. split; [exact Hbr|].
  split; [exact Hint|]. split.
  - intros Hlt.
    replace (Reqb (z2 - z1) 0) with false by (symmetry; apply Reqb_false; lra).
    split; [reflexivity | apply lerp_between; lra].
  - intros ->.
    replace (Reqb (z2 - z2) 0) with true by (symmetry; apply Reqb_true; lra).
    reflexivity.
Qed.

Lemma interpolate_covers_path_witness :
  exists (i : nat) (z1 y1 z2 y2 : R) (h : npfloat),
    nth_error [(0, 0); (10, 3); (12, 3.6)] i = Some (z1, y1) /\
    nth_error [(0, 0); (10, 3); (12, 3.6)] (S i) = Some (z2, y2) /\
    z1 <= 11 <= z2 /\
    interpolate [(0, 0); (10, 3); (12, 3.6)] 11 = Some h /\
    (z1 < z2 ->
     h = Fin (y1 + (11 - z1) / (z2 - z1) * (y2 - y1)) /\
     Rmin y1 y2 <= y1 + (11 - z1) / (z2 - z1) * (y2 - y1) <= Rmax y1 y2) /\
    (z1 = z2 -> h = NaN).
Proof.
  apply (interpolate_covers_path [(0, 0); (10, 3); (12, 3.6)] 11).
  - simpl. lia.
  - unfold final_z. simpl. lra.
Defined.

(** Beyond the last position of a path no height is found. *)
Lemma interpolate_beyond (p : ray_path) (z : R) :
  (forall q, In q p -> fst q < z) -> interpolate p z = None.
Proof.
  induction p as [|[z1 y1] p IH]; intros Hall; [reflexivity|].
  destruct p as [|[z2 y2] p]; [reflexivity|].
  cbn [interpolate].
  replace (Rleb z z2) with false.
  - rewrite andb_false_r. apply IH. intros q Hq. apply Hall. right. exact Hq.
  - symmetry. apply Rleb_false. apply (Hall (z2, y2)). right. left. reflexivity.
Qed.

(** A path whose first two samples are at different positions gives a
    number wherever it reaches. *)
Lemma interpolate_on_path (p rest : ray_path) (z z0 y0 z1 y1 : R) :
  p = (z0, y0) :: (z1, y1) :: rest ->
  z0 < z1 ->
  z0 <= z <= final_z p ->
  exists h, interpolate p z = Some (Fin h) /\ on_path p z h.
Proof.
  intros Hp Hfirst Hz.
  destruct (interpolate_first_bracket p z)
    as (i & a1 & b1 & a2 & b2 & Hi & HSi & Hbr & Hpast & Hnone & Hint).
  { rewrite Hp. simpl. lia. }
  { rewrite Hp at 1. simpl. exact Hz. }
  assert (Hlt : a1 < a2).
  { destruct i as [|i].
    - rewrite Hp in Hi, HSi. simpl in Hi, HSi.
      injection Hi as <- _. injection HSi as <- _. exact Hfirst.
    - assert (a1 < z) by (apply Hpast; congruence). lra. }
  replace (Reqb (a2 - a1) 0) with false in Hint
    by (symmetry; apply Reqb_false; lra).
  eexists. split; [exact Hint|].
  exists i, a1, b1, a2, b2. auto 10.
Qed.

(** *** The heights, spread and mean of a sample without nan *)

Lemma py_max_finite (hs : list R) :
  forall h, exists hi,
    py_max (Fin h) (map Fin hs) = Fin hi /\
    In hi (h :: hs) /\ forall x, In x (h :: hs) -> x <= hi.
Proof.
  unfold py_max. induction hs as [|a hs IH]; intros h.
  - exists h. split; [reflexivity|]. split; [left; reflexivity|].
    intros x [<- | []]. lra.
  - cbn [map fold_left flt].
    destruct (Rltb h a) eqn:Hb.
    + apply Rltb_true in Hb. destruct (IH a) as (hi & Heq & Hin & Hle).
      exists hi. split; [exact Heq|]. split; [right; exact Hin|].
      intros x [<- | Hx]; [| apply Hle; exact Hx].
      specialize (Hle a (or_introl eq_refl)). lra.
    + apply Rltb_false in Hb. destruct (IH h) as (hi & Heq & Hin & Hle).
      exists hi. split; [exact Heq|].
      split; [destruct Hin as [<- | Hin]; [left; reflexivity | right; right; exact Hin]|].
      intros x [<- | [<- | Hx]].
      * apply Hle. left. reflexivity.
      * specialize (Hle h (or_introl eq_refl)). lra.
      * apply Hle. right. exact Hx.
Qed.

Lemma py_min_finite (hs : list R) :
  forall h, exists lo,
    py_min (Fin h) (map Fin hs) = Fin lo /\
    In lo (h :: hs) /\ forall x, In x (h :: hs) -> lo <= x.
Proof.
  unfold py_min. induction hs as [|a hs IH]; intros h.
  - exists h. split; [reflexivity|]. split; [left; reflexivity|].
    intros x [<- | []]. lra.
  - cbn [map fold_left flt].
    destruct (Rltb a h) eqn:Hb.
    + apply Rltb_true in Hb. destruct (IH a) as (lo & Heq & Hin & Hle).
      exists lo. split; [exact Heq|]. split; [right; exact Hin|].
      intros x [<- | Hx]; [| apply Hle; exact Hx].
      specialize (Hle a (or_introl eq_refl)). lra.
    + apply Rltb_false in Hb. destruct (IH h) as (lo & Heq & Hin & Hle).
      exists lo. split; [exact Heq|].
      split; [destruct Hin as [<- | Hin]; [left; reflexivity | right; right; exact Hin]|].
      intros x [<- | [<- | Hx]].
      * apply Hle. left. reflexivity.
      * specialize (Hle h (or_introl eq_refl)). lra.
      * apply Hle. right. exact Hx.
Qed.

Lemma np_mean_finite (hs : list R) :
  np_mean (map Fin hs) = Fin (sum_list hs / INR (length hs)).
Proof.
  unfold np_mean.
  assert (H : forall l a, fold_left fadd (map Fin l) (Fin a) = Fin (a + sum_list l)).
  { induction l as [|x l IH]; intros a; simpl.
    - f_equal. ring.
    - rewrite IH. f_equal. ring. }
  rewrite H, length_map, Rplus_0_l. reflexivity.
Qed.

Lemma spread_at_finite (ray_paths : list ray_path) (z : R) (hs : list R) :
  heights_at ray_paths z = map Fin hs ->
  (hs = [] /\ spread_at ray_paths z = []) \/
  exists lo hi,
    In lo hs /\ In hi hs /\ (forall h, In h hs -> lo <= h <= hi) /\
    spread_at ray_paths z
    = [(Fin (hi - lo), z, Fin (sum_list hs / INR (length hs)))].
Proof.
  intros Hh. unfold spread_at. rewrite Hh.
  destruct hs as [|h hs]; [left; split; reflexivity | right].
  cbn [map].
  destruct (py_max_finite hs h) as (hi & Hmax & Hhi & Hle).
  destruct (py_min_finite hs h) as (lo & Hmin & Hlo & Hge).
  exists lo, hi. split; [exact Hlo|]. split; [exact Hhi|].
  split; [intros x Hx; split; [apply Hge | apply Hle]; exact Hx|].
  rewrite Hmax, Hmin. change (Fin h :: map Fin hs) with (map Fin (h :: hs)).
  rewrite np_mean_finite. reflexivity.
Qed.

Lemma heights_at_finite (ray_paths : list ray_path) (z : R) :
  (forall p, In p ray_paths -> z <= final_z p ->
             exists h, interpolate p z = Some (Fin h) /\ on_path p z h) ->
  (forall p, In p ray_paths -> final_z p < z -> interpolate p z = None) ->
  exists hs,
    heights_at ray_paths z = map Fin hs /\
    Forall2 (fun p h => on_path p z h)
            (filter (fun p => Rleb z (final_z p)) ray_paths) hs.
Proof.
  unfold heights_at.
  induction ray_paths as [|p ps IH]; intros Hin Hout.
  - exists []. split; [reflexivity | constructor].
  - destruct IH as (hs & Hhs & Hall).
    { intros q Hq. apply Hin. right. exact Hq. }
    { intros q Hq. apply Hout. right. exact Hq. }
    cbn [flat_map filter]. rewrite Hhs.
    destruct (Rleb z (final_z p)) eqn:Hb.
    + apply Rleb_true in Hb.
      destruct (Hin p (or_introl eq_refl) Hb) as (h & Hint & Hon).
      rewrite Hint. exists (h :: hs). split; [reflexivity|].
      constructor; assumption.
    + apply Rleb_false in Hb.
      rewrite (Hout p (or_introl eq_refl) Hb).
      exists hs. split; [reflexivity | exact Hall].
Qed.

(** *** Paths of a system with no negative distance *)

Lemma trace_loop_below (els : list element) (ms : list matrix_entry) :
  Forall (fun m => 0 <= entry_distance m) ms ->
  forall st,
    (forall q, In q (path st) -> fst q <= current_z st) ->
    forall q, In q (path (trace_loop els ms st)) ->
              fst q <= current_z (trace_loop els ms st).
Proof.
  induction 1 as [|m ms Hm _ IH]; intros st Hst; [exact Hst|].
  assert (Hst' : forall q, In q (path (apply_op m st)) ->
                           fst q <= current_z (apply_op m st)).
  { destruct m as [[kind mat] d]. unfold entry_distance in Hm. simpl in Hm |- *.
    intros q Hq. apply in_app_or in Hq. destruct Hq as [Hq | [<- | []]].
    - specialize (Hst q Hq). lra.
    - simpl. lra. }
  cbn [trace_loop]. case_if; [exact Hst'|].
  apply IH. exact Hst'.
Qed.

Lemma trace_path_final_z (s : OpticalSystem) (w0 y0 : R) :
  final_z (trace_path s w0 y0) = current_z (trace_final s w0 y0).
Proof.
  unfold final_z, trace_path, trace_final.
  destruct (matrices s) as [|m ms] eqn:Hms; [reflexivity|].
  rewrite trace_loop_last by discriminate. reflexivity.
Qed.

Lemma trace_path_below (s : OpticalSystem) (w0 y0 : R) (q : sample) :
  Forall (fun m => 0 <= entry_distance m) (matrices s) ->
  In q (trace_path s w0 y0) -> fst q <= final_z (trace_path s w0 y0).
Proof.
  intros Hnn Hq. rewrite trace_path_final_z.
  apply (trace_loop_below _ _ Hnn (trace_init w0 y0)); [| exact Hq].
  simpl. intros q' [<- | []]. simpl. lra.
Qed.

Lemma trace_path_head (s : OpticalSystem) (w0 y0 : R) (m : matrix_entry)
      (ms : list matrix_entry) :
  matrices s = m :: ms ->
  exists y1 rest,
    trace_path s w0 y0 = (0, y0) :: (0 + entry_distance m, y1) :: rest.
Proof.
  intros Hms. unfold trace_path, trace_final. rewrite Hms.
  cbn [trace_loop]. destruct m as [[kind mat] d].
  case_if.
  - eexists. exists []. reflexivity.
  - destruct (trace_loop_extends (optical_elements s) ms
                (apply_op (kind, mat, d) (trace_init w0 y0))) as [ext Hext].
    rewrite Hext. eexists. exists ext. reflexivity.
Qed.

Lemma multi_point_paths_In (s : OpticalSystem) (group : list (R * R)) (p : ray_path) :
  In p (multi_point_paths s group) ->
  (2 <= length p)%nat /\ exists w0 y0, p = trace_path s w0 y0.
Proof.
  unfold multi_point_paths. rewrite filter_In, in_map_iff.
  intros [((w0, y0) & <- & _) Hlen]. apply Nat.ltb_lt in Hlen.
  split; [lia|]. exists w0, y0. reflexivity.
Qed.

Section NoNan.

Variable s : OpticalSystem.
Variable group : list (R * R).
Hypothesis forward : Forall (fun m => 0 <= entry_distance m) (matrices s).
Hypothesis first_op : forall m, hd_error (matrices s) = Some m -> 0 < entry_distance m.

Lemma path_height (p : ray_path) (z : R) :
  In p (multi_point_paths s group) -> 0 <= z <= final_z p ->
  exists h, interpolate p z = Some (Fin h) /\ on_path p z h.
Proof.
  intros Hp Hz. apply multi_point_paths_In in Hp.
  destruct Hp as [Hlen (w0 & y0 & ->)].
  destruct (matrices s) as [|m ms] eqn:Hms.
  - unfold trace_path, trace_final in Hlen. rewrite Hms in Hlen.
    simpl in Hlen. lia.
  - destruct (trace_path_head s w0 y0 m ms Hms) as (y1 & rest & Hpath).
    apply (interpolate_on_path _ rest z 0 y0 (0 + entry_distance m) y1 Hpath).
    + specialize (first_op m eq_refl). lra.
    + exact Hz.
Qed.

Lemma path_no_height (p : ray_path) (z : R) :
  In p (multi_point_paths s group) -> final_z p < z -> interpolate p z = None.
Proof.
  intros Hp Hz. apply multi_point_paths_In in Hp.
  destruct Hp as [_ (w0 & y0 & ->)].
  apply interpolate_beyond. intros q Hq.
  pose proof (trace_path_below s w0 y0 q forward Hq). lra.
Qed.

Lemma heights_of_position (z : R) :
  0 <= z ->
  exists hs,
    heights_at (multi_point_paths s group) z = map Fin hs /\
    Forall2 (fun p h => on_path p z h)
            (filter (fun p => Rleb z (final_z p)) (multi_point_paths s group)) hs.
Proof.
  intros Hz. apply heights_at_finite.
  - intros p Hp Hle. apply path_height; [exact Hp | lra].
  - intros p Hp Hlt. apply path_no_height; assumption.
Qed.

Lemma linspace_nonneg (z : R) :
  In z (linspace 0 (total_distance s) 1000) -> 0 <= z.
Proof.
  intros Hz. apply linspace_In in Hz. destruct Hz as (i & Hi & ->).
  pose proof (total_distance_of_nonneg (matrices s)) as Ht.
  fold (total_distance s) in Ht.
  assert (H0 : 0 <= INR i) by apply pos_INR.
  change (INR (1000 - 1)) with (INR 999). rewrite INR_999. nra.
Qed.

Lemma samples_sample_of (c : spread_sample) :
  In c (samples_of s group) -> sample_of (multi_point_paths s group) c.
Proof.
  unfold samples_of, collect_spreads. rewrite in_flat_map.
  intros (z & Hz & Hc).
  destruct (heights_of_position z (linspace_nonneg z Hz)) as (hs & Hhs & Hall).
  destruct (spread_at_finite _ z hs Hhs) as [[_ Hnil] | (lo & hi & Hlo & Hhi & Hbd & Hsp)].
  - rewrite Hnil in Hc. destruct Hc.
  - rewrite Hsp in Hc. destruct Hc as [<- | []].
    exists hs, lo, hi. auto 10.
Qed.

Lemma samples_finite : Forall finite_sample (samples_of s group).
Proof.
  rewrite Forall_forall. intros c Hc.
  destruct (samples_sample_of c Hc) as (hs & lo & hi & _ & _ & _ & _ & Hsp & Hm).
  eexists. eexists. split; [exact Hsp | exact Hm].
Qed.

Lemma sample_exists (z : R) (p : ray_path) :
  In z (linspace 0 (total_distance s) 1000) ->
  In p (multi_point_paths s group) -> z <= final_z p ->
  exists c, In c (samples_of s group) /\ sample_z c = z.
Proof.
  intros Hz Hp Hle.
  destruct (heights_of_position z (linspace_nonneg z Hz)) as (hs & Hhs & Hall).
  destruct (spread_at_finite _ z hs Hhs) as [[Hnil _] | (lo & hi & _ & _ & _ & Hsp)].
  - subst hs. inversion Hall as [Hf |]. symmetry in Hf.
    assert (Hin : In p (filter (fun p => Rleb z (final_z p)) (multi_point_paths s group))).
    { apply filter_In. split; [exact Hp | apply Rleb_true; exact Hle]. }
    rewrite Hf in Hin. destruct Hin.
  - exists (Fin (hi - lo), z, Fin (sum_list hs / INR (length hs))).
    split; [| reflexivity].
    unfold samples_of, collect_spreads. apply in_flat_map.
    exists z. split; [exact Hz|]. rewrite Hsp. left. reflexivity.
Qed.

End NoNan.

Lemma find_split {A} (P : A -> bool) (l : list A) (x : A) :
  find P l = Some x ->
  exists pre post, l = pre ++ x :: post /\ P x = true /\
                   Forall (fun y => P y = false) pre.
Proof.
  induction l as [|a l IH]; simpl; [discriminate|].
  destruct (P a) eqn:Ha.
  - intros [= <-]. exists [], l. auto.
  - intros Hf. destruct (IH Hf) as (pre & post & -> & Hx & Hpre).
    exists (a :: pre), post. auto.
Qed.

(** X13. In a system with no negative distance whose first op has a
    positive length, no sample is nan.  Every sample then is the sample of
    the paths at its position: the heights are the linear interpolations on
    the paths that reach the position, the spread is the largest minus the
    smallest, the mean is their mean; and there is a sample at every one of
    the 1000 positions that some path reaches.  The sorted samples are a
    rearrangement of them, ascending by spread.  For each group the two
    reported values are absent together, when fewer than two paths exist or
    no sample is more than 1 cm from the head of the sorted samples, or
    present together: they are the z and the mean height of one sample, taken
    at one of the positions [i * total / 999] inside the system, more than
    1 cm away from the head, which is a sample of least spread, and of least
    spread among the samples that far from it. *)
Theorem convergence_point_origin :
  forall (list_sort : list spread_sample -> list spread_sample)
         (s : OpticalSystem) (group : list (R * R)),
    python_sort list_sort ->
    Forall (fun m => 0 <= entry_distance m) (matrices s) ->
    (forall m, hd_error (matrices s) = Some m -> 0 < entry_distance m) ->
    (forall c, In c (samples_of s group) -> sample_of (multi_point_paths s group) c) /\
    (forall z p, In z (linspace 0 (total_distance s) 1000) ->
                 In p (multi_point_paths s group) -> z <= final_z p ->
                 exists c, In c (samples_of s group) /\ sample_z c = z) /\
    Permutation (sorted_samples list_sort s group) (samples_of s group) /\
    StronglySorted spread_le (sorted_samples list_sort s group) /\
    ((convergence list_sort s group = (None, None) /\
      ((length (multi_point_paths s group) < 2)%nat \/
       forall c1 c, hd_error (sorted_samples list_sort s group) = Some c1 ->
                    In c (samples_of s group) ->
                    Rabs (sample_z c - sample_z c1) <= 1)) \/
     exists c1 c2 : spread_sample,
       convergence list_sort s group = (Some (sample_z c2), Some (sample_mean c2)) /\
       hd_error (sorted_samples list_sort s group) = Some c1 /\
       In c1 (samples_of s group) /\
       In c2 (samples_of s group) /\
       (forall c, In c (samples_of s group) -> spread_le c1 c) /\
       1 < Rabs (sample_z c2 - sample_z c1) /\
       (forall c, In c (samples_of s group) ->
                  1 < Rabs (sample_z c - sample_z c1) -> spread_le c2 c) /\
       0 <= sample_z c2 <= total_distance s /\
       (exists i, (i < 1000)%nat /\ sample_z c2 = INR i * (total_distance s / 999))).
Proof.
  intros list_sort s group Hsort Hfw Hfirst.
  pose proof (samples_finite s group Hfw Hfirst) as Hfin.
  pose proof (sorted_samples_perm list_sort s group Hsort) as Hperm.
  assert (Hsorted : StronglySorted spread_le (sorted_samples list_sort s group)).
  { rewrite (sorted_samples_finite list_sort s group Hsort Hfin).
    apply py_sort_ascending. exact Hfin. }
  split; [exact (samples_sample_of s group Hfw Hfirst)|].
  split; [exact (sample_exists s group Hfw Hfirst)|].
  split; [exact Hperm|]. split; [exact Hsorted|].
  unfold convergence.
  destruct (length (multi_point_paths s group) <? 2)%nat eqn:Hlen.
  { left. split; [reflexivity|]. left. apply Nat.ltb_lt. exact Hlen. }
  assert (Hfin' : Forall finite_sample (sorted_samples list_sort s group))
    by (apply (Permutation_Forall (Permutation_sym Hperm)); exact Hfin).
  destruct (sorted_samples list_sort s group) as [|c1 rest] eqn:Hs.
  { left. split; [reflexivity|]. right. intros c1 c Hhd. discriminate. }
  assert (Hmem : forall c, In c (samples_of s group) <-> In c (c1 :: rest)).
  { intros c. split; apply Permutation_in;
      [apply Permutation_sym |]; exact Hperm. }
  unfold second_distinct_candidate.
  destruct (find (fun c => Rltb 1 (Rabs (sample_z c - sample_z c1))) rest)
    as [c2|] eqn:Hfind.
  - right. destruct (find_split _ _ _ Hfind) as (pre & post & Hrest & Hfar & Hpre).
    apply Rltb_true in Hfar.
    assert (Hin2 : In c2 (c1 :: rest)).
    { right. rewrite Hrest. apply in_elt. }
    inversion Hsorted as [|? ? Hsrest Hall]; subst.
    rewrite Forall_forall in Hall.
    inversion Hfin' as [|? ? Hf1 Hfrest]; subst.
    exists c1, c2. split; [reflexivity|]. split; [reflexivity|].
    split; [apply Hmem; left; reflexivity|].
    split; [apply Hmem; exact Hin2|].
    split; [| split; [exact Hfar|]; split; [| split]].
    + intros c Hc. apply Hmem in Hc. destruct Hc as [<- | Hc].
      * apply spread_le_refl. exact Hf1.
      * apply Hall. exact Hc.
    + intros c Hc Hcfar. apply Hmem in Hc. destruct Hc as [<- | Hc].
      { rewrite Rminus_diag, Rabs_R0 in Hcfar. lra. }
      apply in_app_or in Hc. destruct Hc as [Hc | [<- | Hc]].
      * rewrite Forall_forall in Hpre. specialize (Hpre c Hc).
        apply Rltb_false in Hpre. lra.
      * apply spread_le_refl. rewrite Forall_forall in Hfrest.
        apply Hfrest. apply in_elt.
      * assert (Hs2 : StronglySorted spread_le (c2 :: post)).
        { clear - Hsrest. induction pre as [|a pre IH]; [exact Hsrest|].
          simpl in Hsrest. inversion Hsrest; subst. apply IH. assumption. }
        inversion Hs2 as [|? ? _ Hall2]; subst.
        rewrite Forall_forall in Hall2. apply Hall2. exact Hc.
    + apply (samples_of_range s group). apply Hmem. exact Hin2.
    + apply (samples_of_In s group). apply Hmem. exact Hin2.
  - left. split; [reflexivity|]. right.
    intros c1' c [= <-] Hc. apply Hmem in Hc. destruct Hc as [<- | Hc].
    + rewrite Rminus_diag, Rabs_R0. lra.
    + pose proof (find_none _ _ Hfind c Hc) as Hn. apply Rltb_false in Hn. exact Hn.
Qed.

Lemma convergence_point_origin_witness :
  let list_sort := py_sort in
  let s := transfers [24] [] (Some 4) None in
  let group := [(0.1, 0); (0.2, 0)] in
  (forall c, In c (samples_of s group) -> sample_of (multi_point_paths s group) c) /\
  (forall z p, In z (linspace 0 (total_distance s) 1000) ->
               In p (multi_point_paths s group) -> z <= final_z p ->
               exists c, In c (samples_of s group) /\ sample_z c = z) /\
  Permutation (sorted_samples list_sort s group) (samples_of s group) /\
  StronglySorted spread_le (sorted_samples list_sort s group) /\
  ((convergence list_sort s group = (None, None) /\
    ((length (multi_point_paths s group) < 2)%nat \/
     forall c1 c, hd_error (sorted_samples list_sort s group) = Some c1 ->
                  In c (samples_of s group) ->
                  Rabs (sample_z c - sample_z c1) <= 1)) \/
   exists c1 c2 : spread_sample,
     convergence list_sort s group = (Some (sample_z c2), Some (sample_mean c2)) /\
     hd_error (sorted_samples list_sort s group) = Some c1 /\
     In c1 (samples_of s group) /\
     In c2 (samples_of s group) /\
     (forall c, In c (samples_of s group) -> spread_le c1 c) /\
     1 < Rabs (sample_z c2 - sample_z c1) /\
     (forall c, In c (samples_of s group) ->
                1 < Rabs (sample_z c - sample_z c1) -> spread_le c2 c) /\
     0 <= sample_z c2 <= total_distance s /\
     (exists i, (i < 1000)%nat /\ sample_z c2 = INR i * (total_distance s / 999))).
Proof.
  apply (convergence_point_origin py_sort (transfers [24] [] (Some 4) None)
                                  [(0.1, 0); (0.2, 0)]).
  - exact py_sort_python_sort.
  - repeat constructor. simpl. lra.
  - intros m [= <-]. simpl. lra.
Defined.

(** X14. A group of no ray, or of a single ray, has no convergence point,
    whatever the system and the sort. *)
Theorem lone_ray_no_convergence :
  forall (list_sort : list spread_sample -> list spread_sample)
         (s : OpticalSystem) (r : R * R),
    find_convergence list_sort [] s = (Ok (None, None), s) /\
    find_convergence list_sort [r] s = (Ok (None, None), s).
Proof.
  intros list_sort s r. rewrite !find_convergence_run.
  unfold convergence, multi_point_paths.
  split; [reflexivity|].
  cbn [map filter].
  destruct (1 <? length (trace_path s (fst r) (snd r)))%nat; reflexivity.
Qed.

Lemma short_system_convergence (list_sort : list spread_sample -> list spread_sample)
      (s : OpticalSystem) (group : list (R * R)) :
  python_sort list_sort ->
  total_distance s <= 1 -> convergence list_sort s group = (None, None).
Proof.
  intros Hsort Hshort. unfold convergence.
  destruct (length (multi_point_paths s group) <? 2)%nat; [reflexivity|].
  pose proof (sorted_samples_range list_sort s group) as Hrange.
  destruct (sorted_samples list_sort s group) as [|c1 rest]; [reflexivity|].
  apply second_distinct_absent. rewrite Forall_forall. intros c Hc.
  assert (H1 := Hrange c1 Hsort (or_introl eq_refl)).
  assert (H2 := Hrange c Hsort (or_intror Hc)).
  unfold Rabs. destruct (Rcase_abs _); lra.
Qed.

(** X15. A system whose positive transfer distances add up to at most 1 cm
    never yields a convergence point: no two sample positions are more than
    1 cm apart, so all four values are absent for any rays, nan or not. *)
Theorem short_system_no_image :
  forall (list_sort : list spread_sample -> list spread_sample)
         (s : OpticalSystem) (H : R) (rays : list (R * R)),
    python_sort list_sort ->
    object_height s = Some H ->
    total_distance s <= 1 ->
    find_image_position list_sort rays s = (Ok (None, None, None, None), s).
Proof.
  intros list_sort s H rays Hsort Hoh Hshort.
  rewrite (find_image_position_run list_sort s H rays Hoh).
  rewrite !short_system_convergence by assumption. reflexivity.
Qed.

Lemma short_system_no_image_witness :
  find_image_position py_sort [(0.1, 0); (0.2, 0); (0.1, 4); (0.2, 4)]
    (built [SetObjectHeight 4; AddTransfer 0.5; AddRefraction 0.5 2 6; AddTransfer 0.5])
  = (Ok (None, None, None, None),
     built [SetObjectHeight 4; AddTransfer 0.5; AddRefraction 0.5 2 6; AddTransfer 0.5]).
Proof.
  apply (short_system_no_image py_sort _ 4).
  - exact py_sort_python_sort.
  - reflexivity.
  - unfold total_distance, total_distance_of, built; simpl. rbool. simpl. lra.
Defined.

Lemma filter_filter_implied {A} (f g : A -> bool) (l : list A) :
  (forall x, f x = true -> g x = true) -> filter f (filter g l) = filter f l.
Proof.
  intros Himp. induction l as [|x l IH]; [reflexivity|].
  simpl. destruct (g x) eqn:Hg; simpl.
  - rewrite IH. reflexivity.
  - destruct (f x) eqn:Hf; [| exact IH].
    rewrite (Himp x Hf) in Hg. discriminate.
Qed.

(** X16. Only the rays launched from the base or from the tip count: the
    rays whose launch height is within 1e-10 of neither 0 nor the object
    height can be dropped from the list without changing the result. *)
Theorem other_rays_ignored :
  forall (list_sort : list spread_sample -> list spread_sample)
         (ms : list matrix_entry) (els : list element) (H : R)
         (stop : option element) (rays : list (R * R)),
    let s := mkSystem ms els (Some H) stop in
    find_image_position list_sort rays s
    = find_image_position list_sort
        (filter (fun r => Rltb (Rabs (snd r)) 1e-10 || Rltb (Rabs (snd r - H)) 1e-10) rays)
        s.
Proof.
  intros list_sort ms els H stop rays s.
  rewrite !(find_image_position_run list_sort s H) by reflexivity.
  unfold base_rays, tip_rays.
  rewrite !filter_filter_implied; [reflexivity | |];
    intros x Hx; rewrite Hx; auto using orb_true_r.
Qed.

(** X17. With the object height set to 0 the tip rays are the base rays,
    so the head of the image is reported where its toe is. *)
Theorem zero_height_head_is_toe :
  forall (list_sort : list spread_sample -> list spread_sample)
         (ms : list matrix_entry) (els : list element) (stop : option element)
         (rays : list (R * R)),
    let s := mkSystem ms els (Some 0) stop in
    find_image_position list_sort rays s
    = (Ok (fst (convergence list_sort s (base_rays rays)),
           snd (convergence list_sort s (base_rays rays)),
           fst (convergence list_sort s (base_rays rays)),
           snd (convergence list_sort s (base_rays rays))),
       s).
Proof.
  intros list_sort ms els stop rays s.
  rewrite (find_image_position_run list_sort s 0) by reflexivity.
  replace (tip_rays 0 rays) with (base_rays rays); [reflexivity|].
  unfold tip_rays, base_rays. apply filter_ext.
  intros r. rewrite Rminus_0_r. reflexivity.
Qed.

(** *** Two diverging rays in free space *)

Lemma insert_sorted_last (x : spread_sample) (acc : list spread_sample) :
  Forall (fun y => tuple_le y x) acc -> insert_sorted x acc = acc ++ [x].
Proof.
  induction 1 as [|y acc Hy _ IH]; [reflexivity|].
  simpl. unfold tuple_le in Hy. rewrite Hy, IH. reflexivity.
Qed.

Lemma StronglySorted_before {A} (P : A -> A -> Prop) (l1 l2 : list A) (x : A) :
  StronglySorted P (l1 ++ x :: l2) -> Forall (fun y => P y x) l1.
Proof.
  induction l1 as [|y l1 IH]; intros H; [constructor|].
  simpl in H. inversion H as [|? ? Hs Hall]; subst.
  constructor; [| apply IH; exact Hs].
  rewrite Forall_forall in Hall. apply Hall, in_elt.
Qed.

(** Insertion leaves a list as it is when no item of it is less than an
    earlier one. *)
Lemma py_sort_sorted (l : list spread_sample) :
  StronglySorted tuple_le l -> py_sort l = l.
Proof.
  intros Hs. unfold py_sort.
  assert (H : forall l acc, StronglySorted tuple_le (acc ++ l) ->
                            fold_left (fun a x => insert_sorted x a) l acc = acc ++ l).
  { clear. induction l as [|x l IH]; intros acc Hs; simpl.
    - rewrite app_nil_r. reflexivity.
    - rewrite insert_sorted_last by (apply (StronglySorted_before _ _ l); exact Hs).
      rewrite IH.
      + rewrite <- app_assoc. reflexivity.
      + rewrite <- app_assoc. exact Hs. }
  apply (H l []). exact Hs.
Qed.

Lemma StronglySorted_map_seq {A} (P : A -> A -> Prop) (f : nat -> A) (n : nat) :
  forall a,
    (forall i j, (a <= i < j)%nat -> (j < a + n)%nat -> P (f i) (f j)) ->
    StronglySorted P (map f (seq a n)).
Proof.
  induction n as [|n IH]; intros a Hf; simpl; constructor.
  - apply IH. intros i j Hij Hj. apply Hf; lia.
  - rewrite Forall_forall. intros x Hx. apply in_map_iff in Hx.
    destruct Hx as (j & <- & Hj). apply in_seq in Hj. apply Hf; lia.
Qed.

Lemma find_map_seq {A} (P : A -> bool) (f : nat -> A) (n : nat) :
  forall a x,
    find P (map f (seq a n)) = Some x ->
    exists i, (a <= i < a + n)%nat /\ x = f i /\ P (f i) = true /\
              forall j, (a <= j < i)%nat -> P (f j) = false.
Proof.
  induction n as [|n IH]; intros a x; simpl; [discriminate|].
  destruct (P (f a)) eqn:Ha.
  - intros [= <-]. exists a. repeat split; auto; try lia.
  - intros Hfind. destruct (IH (S a) x Hfind) as (i & Hi & Hx & HP & Hmin).
    exists i. repeat split; auto; try lia.
    intros j Hj. destruct (Nat.eq_dec j a) as [-> | Hne]; [exact Ha | apply Hmin; lia].
Qed.

Lemma flat_map_singletons {A B} (f : A -> list B) (g : A -> B) (l : list A) :
  (forall x, In x l -> f x = [g x]) -> flat_map f l = map g l.
Proof.
  induction l as [|x l IH]; intros H; [reflexivity|].
  simpl. rewrite (H x) by (left; reflexivity).
  rewrite IH by (intros y Hy; apply H; right; exact Hy). reflexivity.
Qed.

(** The spread and the mean of two heights. *)
Lemma two_heights (a b : R) :
  fsub (py_max (Fin a) [Fin b]) (py_min (Fin a) [Fin b]) = Fin (Rabs (a - b)) /\
  np_mean [Fin a; Fin b] = Fin ((a + b) / 2).
Proof.
  split.
  - unfold py_max, py_min. cbn [fold_left flt].
    unfold Rltb. destruct (Rlt_dec a b), (Rlt_dec b a); simpl; f_equal; rsolve.
  - change [Fin a; Fin b] with (map Fin [a; b]). rewrite np_mean_finite.
    f_equal. simpl. lra.
Qed.

Section FreeSpace.

Variables L w1 w2 : R.
Hypothesis L_long : 1 < L.
Hypothesis slopes_differ : w1 <> w2.

Lemma sample_position_eq (i : nat) : sample_position L i = INR i * (L / 999).
Proof.
  unfold sample_position. change (INR (1000 - 1)) with (INR 999).
  rewrite INR_999. lra.
Qed.

Lemma sample_position_range (i : nat) :
  (i < 1000)%nat -> 0 <= sample_position L i <= L.
Proof.
  intros Hi. rewrite sample_position_eq.
  assert (H0 : 0 <= INR i) by apply pos_INR.
  assert (H1 : INR i <= 999) by (rewrite <- INR_999; apply le_INR; lia).
  split; nra.
Qed.

Lemma sample_position_lt (i j : nat) :
  (i < j)%nat -> sample_position L i < sample_position L j.
Proof.
  intros Hij. rewrite !sample_position_eq. apply lt_INR in Hij. nra.
Qed.

Lemma free_path (els : list element) (oh : option R) (stop : option element) (w : R) :
  trace_path (transfers [L] els oh stop) w 0 = [(0, 0); (0 + L, 1 * 0 + L * w)].
Proof.
  unfold trace_path, trace_final, transfers; simpl. case_if; reflexivity.
Qed.

Lemma free_interpolate (w z : R) :
  0 <= z <= L ->
  interpolate [(0, 0); (0 + L, 1 * 0 + L * w)] z = Some (Fin (w * z)).
Proof.
  intros Hz. cbn [interpolate].
  replace (Rleb 0 z) with true by (symmetry; apply Rleb_true; lra).
  replace (Rleb z (0 + L)) with true by (symmetry; apply Rleb_true; lra).
  replace (Reqb (0 + L - 0) 0) with false by (symmetry; apply Reqb_false; lra).
  simpl. do 2 f_equal. field. lra.
Qed.

Lemma diverging_spread (z : R) :
  0 <= z -> Rabs (w1 * z - w2 * z) = Rabs (w1 - w2) * z.
Proof.
  intros Hz. replace (w1 * z - w2 * z) with ((w1 - w2) * z) by ring.
  rewrite Rabs_mult, (Rabs_pos_eq z) by exact Hz. reflexivity.
Qed.

Lemma free_spread_at (z : R) :
  0 <= z <= L ->
  spread_at [[(0, 0); (0 + L, 1 * 0 + L * w1)]; [(0, 0); (0 + L, 1 * 0 + L * w2)]] z
  = [diverging_sample w1 w2 z].
Proof.
  intros Hz. unfold spread_at, heights_at. cbn [flat_map].
  rewrite !free_interpolate by exact Hz. cbn [app].
  destruct (two_heights (w1 * z) (w2 * z)) as [Hs Hm].
  rewrite Hs, Hm, diverging_spread by lra.
  unfold diverging_sample.
  replace ((w1 * z + w2 * z) / 2) with ((w1 + w2) / 2 * z) by field.
  reflexivity.
Qed.

Lemma free_samples :
  collect_spreads
    [[(0, 0); (0 + L, 1 * 0 + L * w1)]; [(0, 0); (0 + L, 1 * 0 + L * w2)]]
    (linspace 0 L 1000)
  = map (fun i => diverging_sample w1 w2 (sample_position L i)) (seq 0 1000).
Proof.
  unfold collect_spreads, linspace. rewrite flat_map_concat_map, map_map.
  rewrite <- flat_map_concat_map.
  apply flat_map_singletons. intros i Hi. apply in_seq in Hi.
  apply free_spread_at. apply sample_position_range. lia.
Qed.

Lemma diverging_sample_le (z z' : R) :
  0 <= z < z' -> tuple_le (diverging_sample w1 w2 z) (diverging_sample w1 w2 z').
Proof.
  intros Hz. unfold tuple_le, diverging_sample, tuple_lt, feq, flt.
  assert (Hk : 0 < Rabs (w1 - w2)) by (apply Rabs_pos_lt; lra).
  replace (Reqb (Rabs (w1 - w2) * z') (Rabs (w1 - w2) * z)) with false
    by (symmetry; apply Reqb_false; nra).
  apply Rltb_false. nra.
Qed.

Lemma diverging_samples_sorted (a n : nat) :
  (a + n <= 1000)%nat ->
  StronglySorted tuple_le
    (map (fun i => diverging_sample w1 w2 (sample_position L i)) (seq a n)).
Proof.
  intros Han. apply StronglySorted_map_seq.
  intros i j Hij Hj. apply diverging_sample_le. split.
  - apply sample_position_range. lia.
  - apply sample_position_lt. lia.
Qed.

Lemma diverging_samples_finite (a n : nat) :
  Forall finite_sample
    (map (fun i => diverging_sample w1 w2 (sample_position L i)) (seq a n)).
Proof.
  rewrite Forall_forall. intros c Hc. apply in_map_iff in Hc.
  destruct Hc as (i & <- & _). eexists. eexists. split; reflexivity.
Qed.

Lemma free_sorted_samples :
  py_sort (map (fun i => diverging_sample w1 w2 (sample_position L i)) (seq 0 1000))
  = map (fun i => diverging_sample w1 w2 (sample_position L i)) (seq 0 1000).
Proof. apply py_sort_sorted, diverging_samples_sorted. lia. Qed.

(** The first of the samples [1 .. 999] more than 1 cm from the object
    plane. *)
Lemma first_beyond_1cm (c1 : spread_sample) :
  sample_z c1 = 0 ->
  exists z,
    second_distinct_candidate
      (c1 :: map (fun i => diverging_sample w1 w2 (sample_position L i)) (seq 1 999))
    = (Some z, Some (Fin ((w1 + w2) / 2 * z))) /\
    1 < z <= 1 + L / 999.
Proof.
  intros Hz0. cbn [second_distinct_candidate]. rewrite Hz0.
  set (far := fun c : spread_sample => Rltb 1 (Rabs (sample_z c - 0))).
  assert (Hfar : forall i, (i < 1000)%nat ->
                           far (diverging_sample w1 w2 (sample_position L i)) = true
                           <-> 1 < sample_position L i).
  { intros i Hi. unfold far, sample_z, diverging_sample; cbn [fst snd].
    rewrite Rltb_true, Rminus_0_r.
    destruct (sample_position_range i Hi) as [H0 _].
    rewrite Rabs_pos_eq by exact H0. reflexivity. }
  destruct (find far (map (fun i => diverging_sample w1 w2 (sample_position L i)) (seq 1 999)))
    as [c|] eqn:Hfind.
  - apply find_map_seq in Hfind. destruct Hfind as (i & Hi & -> & Hfi & Hmin).
    exists (sample_position L i). split; [reflexivity|].
    apply Hfar in Hfi; [| lia]. split; [exact Hfi|].
    destruct (Nat.eq_dec i 1) as [-> | Hne].
    + rewrite sample_position_eq. simpl. lra.
    + assert (Hprev : far (diverging_sample w1 w2 (sample_position L (i - 1))) = false)
        by (apply Hmin; lia).
      assert (Hle : sample_position L (i - 1) <= 1).
      { destruct (Rle_dec (sample_position L (i - 1)) 1) as [Hl | Hn]; [exact Hl|].
        assert (Ht : far (diverging_sample w1 w2 (sample_position L (i - 1))) = true)
          by (apply Hfar; [lia | lra]).
        congruence. }
      rewrite sample_position_eq in Hle |- *.
      replace i with (S (i - 1)) at 1 by lia. rewrite S_INR. lra.
  - exfalso.
    assert (Hin : In (diverging_sample w1 w2 (sample_position L 999))
                     (map (fun i => diverging_sample w1 w2 (sample_position L i)) (seq 1 999))).
    { apply in_map_iff. exists 999%nat. split; [reflexivity|]. apply in_seq. lia. }
    pose proof (find_none _ _ Hfind _ Hin) as Hn.
    assert (Ht : far (diverging_sample w1 w2 (sample_position L 999)) = true).
    { apply Hfar; [lia|]. rewrite sample_position_eq, INR_999. lra. }
    congruence.
Qed.

Lemma free_second_candidate :
  exists z,
    second_distinct_candidate
      (map (fun i => diverging_sample w1 w2 (sample_position L i)) (seq 0 1000))
    = (Some z, Some (Fin ((w1 + w2) / 2 * z))) /\
    1 < z <= 1 + L / 999.
Proof.
  change (seq 0 1000) with (0%nat :: seq 1 999). cbn [map].
  apply first_beyond_1cm.
  unfold sample_z, diverging_sample. cbn [fst snd].
  rewrite sample_position_eq. simpl. ring.
Qed.

End FreeSpace.

(** X19. The search reports a convergence point where there is none: for
    two rays leaving the axis with different slopes through more than 1 cm of
    free space, rays that only move apart, [find_convergence] returns the
    first sample position beyond 1 cm, with the mean of the two heights
    there. *)
Theorem free_space_reports_convergence :
  forall (list_sort : list spread_sample -> list spread_sample)
         (L w1 w2 : R) (els : list element) (oh : option R) (stop : option element),
    python_sort list_sort ->
    1 < L ->
    w1 <> w2 ->
    exists z,
      find_convergence list_sort [(w1, 0); (w2, 0)] (transfers [L] els oh stop)
      = (Ok (Some z, Some (Fin ((w1 + w2) / 2 * z))), transfers [L] els oh stop) /\
      1 < z <= 1 + L / 999 /\
      0 < Rabs (w1 * z - w2 * z).
Proof.
  intros list_sort L w1 w2 els oh stop Hsort HL Hw.
  destruct (free_second_candidate L w1 w2 HL) as (z & Hsel & Hz).
  exists z. split; [| split; [exact Hz|]].
  - rewrite find_convergence_run. f_equal. f_equal.
    assert (Hsamples : samples_of (transfers [L] els oh stop) [(w1, 0); (w2, 0)]
                       = map (fun i => diverging_sample w1 w2 (sample_position L i))
                             (seq 0 1000)).
    { unfold samples_of, multi_point_paths.
      cbn [map fst snd]. rewrite !free_path. cbn [filter length Nat.ltb Nat.leb].
      assert (Ht : total_distance (transfers [L] els oh stop) = L).
      { unfold total_distance, total_distance_of, transfers; simpl.
        replace (Rltb 0 L) with true by (symmetry; apply Rltb_true; lra).
        simpl. ring. }
      rewrite Ht. apply free_samples. exact HL. }
    unfold convergence.
    rewrite (sorted_samples_finite list_sort _ _ Hsort)
      by (rewrite Hsamples; apply diverging_samples_finite).
    rewrite Hsamples, free_sorted_samples by assumption.
    unfold multi_point_paths. cbn [map fst snd]. rewrite !free_path.
    cbn [filter length Nat.ltb Nat.leb]. exact Hsel.
  - apply Rabs_pos_lt. nra.
Qed.

Lemma free_space_reports_convergence_witness :
  exists z,
    find_convergence py_sort [(0.1, 0); (0.2, 0)] (transfers [24] [] (Some 4) None)
    = (Ok (Some z, Some (Fin ((0.1 + 0.2) / 2 * z))), transfers [24] [] (Some 4) None) /\
    1 < z <= 1 + 24 / 999 /\
    0 < Rabs (0.1 * z - 0.2 * z).
Proof.
  apply (free_space_reports_convergence py_sort 24 0.1 0.2 [] (Some 4) None);
    [exact py_sort_python_sort | lra | lra].
Defined.

(** *** A lens at the object plane *)








(** * Further properties of the wizard *)

Lemma add_condition_cases (ctype : condition_type) (params : list entry_text)
      (g : OpticalSystemGUI) :
  (acceptable ctype params /\
   fst (add_condition ctype params g) = Ok Refreshed /\
   exists s' c pos',
     snd (add_condition ctype params g)
     = mkGUI s' (gui_object_height g) (conditions g ++ [c]) pos' /\
     ((exists d, ctype = Transfer /\ s' = snd (add_transfer d (system g)) /\
                 pos' = current_position g + d) \/
      (exists d, ctype = Iris /\
                 s' = snd (add_iris (current_position g) d (system g)) /\
                 pos' = current_position g) \/
      (exists f d, ctype = Refraction /\ f <> 0 /\
                   s' = snd (add_refraction (current_position g) (1.0 / f) d (system g)) /\
                   pos' = current_position g))) \/
  (~ acceptable ctype params /\
   snd (add_condition ctype params g) = g /\
   fst (add_condition ctype params g) <> Ok Refreshed).
Proof.
  destruct g as [sys oh cs pos].
  unfold add_condition, try_except, add_condition_try, bind, param, float,
    py_div, ret, raise, acceptable.
  destruct ctype.
  - destruct params as [|[d|] params]; simpl.
    + right. repeat split; try discriminate. intros (d & Hd); discriminate.
    + left. split; [exists d; reflexivity|]. split; [reflexivity|].
      eexists _, _, _. split; [reflexivity|]. left. exists d. auto.
    + right. repeat split; try discriminate. intros (d & Hd); discriminate.
  - destruct params as [|[d|] params]; simpl.
    + right. repeat split; try discriminate. intros (d & Hd); discriminate.
    + left. split; [exists d; reflexivity|]. split; [reflexivity|].
      eexists _, _, _. split; [reflexivity|]. right; left. exists d. auto.
    + right. repeat split; try discriminate. intros (d & Hd); discriminate.
  - destruct params as [|[f|] [|[d|] params]]; simpl;
      try (right; repeat split; try discriminate;
           intros (f' & d' & H0 & H1 & _); discriminate).
    destruct (Reqb f 0) eqn:Hf; simpl.
    + apply Reqb_true in Hf. right. repeat split; try discriminate.
      intros (f' & d' & [= <-] & _ & Hne). contradiction.
    + apply Reqb_false in Hf. left.
      split; [exists f, d; auto|]. split; [reflexivity|].
      eexists _, _, _. split; [reflexivity|]. right; right. exists f, d. auto.
Qed.

(** X20. [add_condition] goes through exactly when the entries it reads
    hold numbers and, for a refraction, the focal length is not zero; no sign
    or range is checked, so negative distances and diameters are accepted.
    When it goes through it adds one condition label; otherwise the wizard
    and its system are left exactly as they were. *)
Theorem add_condition_all_or_nothing :
  forall (ctype : condition_type) (params : list entry_text) (g : OpticalSystemGUI),
    (acceptable ctype params /\
     fst (add_condition ctype params g) = Ok Refreshed /\
     length (conditions (snd (add_condition ctype params g)))
     = S (length (conditions g))) \/
    (~ acceptable ctype params /\
     fst (add_condition ctype params g) <> Ok Refreshed /\
     snd (add_condition ctype params g) = g).
Proof.
  intros ctype params g.
  destruct (add_condition_cases ctype params g)
    as [(Hacc & Hev & s' & c & pos' & Hg & _) | (Hacc & Hg & Hev)].
  - left. split; [exact Hacc|]. split; [exact Hev|].
    rewrite Hg. simpl. rewrite length_app. simpl. lia.
  - right. auto.
Qed.

Lemma positions_app (ds : list R) (d : R) :
  forall z, positions z (ds ++ [d]) = positions z ds ++ [fold_left Rplus ds z + d].
Proof.
  induction ds as [|x ds IH]; intros z; simpl; [reflexivity|].
  rewrite IH. reflexivity.
Qed.

Lemma end_position_In (ds : list R) :
  forall z, In (fold_left Rplus ds z) (z :: positions z ds).
Proof.
  induction ds as [|x ds IH]; intros z; simpl; [left; reflexivity|].
  right. apply (IH (z + x)).
Qed.

Lemma handle_consistent (ev : wizard_event) (g : OpticalSystemGUI) :
  wizard_consistent g -> wizard_consistent (snd (handle ev g)).
Proof.
  intros [Hpos Hels]. destruct ev as [t | ctype params].
  - destruct g as [sys oh cs pos]. destruct t as [h|]; simpl; split; assumption.
  - cbn [handle].
    destruct (add_condition_cases ctype params g)
      as [(_ & _ & s' & c & pos' & -> & Hcase) | (_ & -> & _)];
      [| split; assumption].
    unfold wizard_consistent, distances in *. cbn [system current_position].
    assert (Hgrow : forall (x d : R) ds,
               In x (0 :: positions 0 ds) -> In x (0 :: positions 0 (ds ++ [d]))).
    { intros x d ds [Hx | Hx]; [left; exact Hx|].
      right. rewrite positions_app. apply in_or_app. left. exact Hx. }
    destruct Hcase as [(d & _ & -> & ->) | [(d & _ & -> & ->) | (f & d & _ & _ & -> & ->)]];
      cbn [snd add_transfer add_iris add_refraction modify bind with_matrices
           with_optical_elements matrices optical_elements].
    + rewrite map_app. cbn [map].
      change (entry_distance (transfer, transfer_matrix d, d)) with d.
      rewrite fold_left_app. cbn [fold_left]. split; [rewrite Hpos; reflexivity|].
      eapply Forall_impl; [| exact Hels]. intros e He. apply Hgrow, He.
    + split; [exact Hpos|]. apply Forall_app. split; [exact Hels|].
      constructor; [| constructor].
      change (elem_pos (iris, current_position g, d)) with (current_position g).
      rewrite Hpos. apply end_position_In.
    + rewrite map_app. cbn [map].
      change (entry_distance (refraction, refraction_matrix (1.0 / f), 0)) with 0.
      rewrite fold_left_app. cbn [fold_left].
      split; [rewrite Rplus_0_r; exact Hpos|].
      apply Forall_app. split.
      * eapply Forall_impl; [| exact Hels]. intros e He. apply Hgrow, He.
      * constructor; [| constructor].
        change (elem_pos (lens, current_position g, d)) with (current_position g).
        rewrite Hpos. apply Hgrow, end_position_In.
Qed.

(** X21. Whatever buttons are pressed and whatever is typed, the system
    the wizard builds keeps the caller contract of the engine: the wizard's
    running position is the axial position [trace_ray] ends at, and every
    lens and iris is registered at the object plane or exactly at a position
    where [trace_ray] takes a sample and checks the apertures. *)
Theorem wizard_keeps_positions :
  forall events : list wizard_event,
    wizard_consistent (run_wizard events wizard_init).
Proof.
  intros events. unfold run_wizard.
  assert (H : forall g, wizard_consistent g ->
                        wizard_consistent (fold_left (fun g ev => snd (handle ev g)) events g)).
  { induction events as [|ev events IH]; intros g Hg; [exact Hg|].
    simpl. apply IH, handle_consistent, Hg. }
  apply H. split; [reflexivity | constructor].
Qed.

Lemma handle_height (ev : wizard_event) (g : OpticalSystemGUI) :
  object_height (system g) = Some (gui_object_height g) ->
  object_height (system (snd (handle ev g)))
  = Some (gui_object_height (snd (handle ev g))).
Proof.
  intros Hh. destruct ev as [t | ctype params].
  - destruct g as [sys oh cs pos]. destruct t as [h|]; simpl; [reflexivity | exact Hh].
  - cbn [handle].
    destruct (add_condition_cases ctype params g)
      as [(_ & _ & s' & c & pos' & -> & Hcase) | (_ & -> & _)]; [| exact Hh].
    cbn [system gui_object_height].
    destruct Hcase as [(d & _ & -> & _) | [(d & _ & -> & _) | (f & d & _ & _ & -> & _)]];
      exact Hh.
Qed.

(** X22. Once the first screen has accepted a height, the system carries
    an object height through everything the wizard does afterwards, the same
    one the wizard keeps for itself, so [find_image_position] never raises on
    a system handed over by the wizard. *)
Theorem wizard_sets_height :
  forall (list_sort : list spread_sample -> list spread_sample)
         (h : R) (events : list wizard_event) (rays : list (R * R)),
    let g := run_wizard events (snd (next_step (Number h) wizard_init)) in
    object_height (system g) = Some (gui_object_height g) /\
    exists v, find_image_position list_sort rays (system g) = (Ok v, system g).
Proof.
  intros list_sort h events rays g.
  assert (Hh : object_height (system g) = Some (gui_object_height g)).
  { unfold g, run_wizard.
    assert (H : forall g0, object_height (system g0) = Some (gui_object_height g0) ->
                object_height
                  (system (fold_left (fun g ev => snd (handle ev g)) events g0))
                = Some (gui_object_height
                          (fold_left (fun g ev => snd (handle ev g)) events g0))).
    { induction events as [|ev events IH]; intros g0 H0; [exact H0|].
      simpl. apply IH, handle_height, H0. }
    apply H. reflexivity. }
  split; [exact Hh|].
  eexists. apply (find_image_position_run list_sort _ _ rays Hh).
Qed.

(** * Further properties of [main] and [draw_arrow] *)

Lemma find_marginal_rays_keeps (fuel : nat) (s : OpticalSystem) :
  matrices (snd (find_marginal_rays fuel s)) = matrices s /\
  object_height (snd (find_marginal_rays fuel s)) = object_height s.
Proof.
  unfold find_marginal_rays.
  destruct (marginal_loop_frame s fuel (mkSearch angle_step None))
    as [-> | (a & _ & ->)]; [tauto|].
  unfold after_failure.
  destruct (length _ <? 2)%nat; [tauto|].
  destruct (find_stop _ _); simpl; tauto.
Qed.

(** X23. How [main] ends before it plots.  It prints nothing while the
    marginal-ray search has not returned.  Once the search has returned, a
    system without object height makes [main] fail with the engine's
    [ValueError], and a system no longer than 1 cm, for which no image is
    found, makes it fail with [TypeError] at the first [print]. *)
Theorem main_failure_modes :
  forall (list_sort : list spread_sample -> list spread_sample)
         (fuel : nat) (s : OpticalSystem),
    (fst (find_marginal_rays fuel s) = OutOfFuel ->
     main_head list_sort fuel (Some s) = MainSearching) /\
    (forall r, fst (find_marginal_rays fuel s) = Ok r ->
               object_height s = None ->
               main_head list_sort fuel (Some s)
               = MainRaises (EngineError (ValueError "Object height not set"))) /\
    (forall r H, python_sort list_sort ->
                 fst (find_marginal_rays fuel s) = Ok r ->
                 object_height s = Some H ->
                 total_distance s <= 1 ->
                 main_head list_sort fuel (Some s) = MainRaises TypeError).
Proof.
  intros list_sort fuel s. unfold main_head.
  destruct (find_marginal_rays_keeps fuel s) as [Hms Hoh].
  destruct (find_marginal_rays fuel s) as [out s1]. cbn [fst snd] in *.
  split; [| split].
  - intros ->. reflexivity.
  - intros r -> Hnone.
    rewrite find_image_position_unset by (rewrite Hoh; exact Hnone). reflexivity.
  - intros r H Hsort -> Hsome Hshort. rewrite Hsome.
    assert (Hshort1 : total_distance s1 <= 1)
      by (unfold total_distance in *; rewrite Hms; exact Hshort).
    rewrite (find_image_position_run list_sort s1 H) by (rewrite Hoh; exact Hsome).
    rewrite !short_system_convergence by assumption. reflexivity.
Qed.

Lemma main_failure_modes_witness :
  main_head py_sort 7 (Some free_space) = MainSearching /\
  main_head py_sort 1 (Some init)
  = MainRaises (EngineError (ValueError "Object height not set")) /\
  main_head py_sort 1 (Some (built [SetObjectHeight 4])) = MainRaises TypeError.
Proof.
  assert (Hempty : forall oh, fst (find_marginal_rays 1 (mkSystem [] [] oh None)) = Ok []).
  { intros oh. unfold find_marginal_rays. cbn [marginal_loop].
    erewrite bind_ok; [| apply marginal_body_fail; reflexivity].
    reflexivity. }
  split; [| split].
  - apply (proj1 (main_failure_modes py_sort 7 free_space)).
    rewrite (find_marginal_rays_running free_space 8); [reflexivity | | lia].
    intros j _. apply free_space_passes.
  - apply (proj1 (proj2 (main_failure_modes py_sort 1 init)) []);
      [apply Hempty | reflexivity].
  - apply (proj2 (proj2 (main_failure_modes py_sort 1 (built [SetObjectHeight 4]))) [] 4).
    + exact py_sort_python_sort.
    + apply Hempty.
    + reflexivity.
    + unfold total_distance, total_distance_of, built; simpl. lra.
Defined.

(** X24. The outline of the arrow is closed: it has as many vertices as
    path codes, it starts and ends at the foot [(position, 0)], and its tip is
    at [position], at the given height, negated when [inverted] is set.  A
    negative height without the flag gives the outline that the flag gives
    for the positive height, run through in the opposite direction; that is
    how [main] draws the inverted image.  The outline is symmetric about the
    vertical line through [position]. *)
Theorem draw_arrow_outline :
  forall (position height : R) (inverted : bool),
    length (arrow_verts position height inverted) = length arrow_codes /\
    hd (0, 0) (arrow_verts position height inverted) = (position, 0) /\
    last (arrow_verts position height inverted) (0, 0) = (position, 0) /\
    nth 4 (arrow_verts position height inverted) (0, 0)
    = (position, if inverted then - height else height) /\
    arrow_verts position (- height) false = rev (arrow_verts position height true) /\
    map (fun q => (2 * position - fst q, snd q)) (arrow_verts position height inverted)
    = rev (arrow_verts position height inverted).
Proof.
  intros position height inverted.
  split; [reflexivity|]. split; [reflexivity|]. split; [reflexivity|].
  split; [reflexivity|].
  split; unfold arrow_verts; simpl; repeat (f_equal; try lra).
Qed.

(** * Further properties: what the queries depend on *)

Lemma apply_mutations_height_last (calls : list mutation) :
  forall s : OpticalSystem,
    object_height (snd (apply_mutations calls s))
    = last (map Some (heights_set calls)) (object_height s).
Proof.
  induction calls as [|c calls IH]; intros s; [reflexivity|].
  cbn [apply_mutations]. erewrite bind_ok by apply apply_mutation_ok.
  rewrite IH. destruct c as [h | d | pos P d | pos d]; try reflexivity.
  cbn [heights_set flat_map app map]. fold (heights_set calls).
  destruct (map Some (heights_set calls)) as [|o l] eqn:Hm; [reflexivity|].
  cbn [last].
  assert (Hindep : forall (l : list (option R)) (x d d' : option R),
             last (x :: l) d = last (x :: l) d').
  { clear. induction l as [|y l IH]; intros x d d'; [reflexivity|].
    cbn [last]. apply (IH y). }
  apply Hindep.
Qed.

Lemma apply_mutations_fields (calls : list mutation) :
  forall s : OpticalSystem,
    matrices (snd (apply_mutations calls s)) = matrices s ++ ops_of calls /\
    optical_elements (snd (apply_mutations calls s))
    = optical_elements s ++ elements_of calls /\
    STOP_optic (snd (apply_mutations calls s)) = STOP_optic s.
Proof.
  induction calls as [|c calls IH]; intros s.
  - simpl. rewrite !app_nil_r. auto.
  - cbn [apply_mutations]. erewrite bind_ok by apply apply_mutation_ok.
    destruct (IH (snd (apply_mutation c s))) as (Hm & He & Hs).
    rewrite Hm, He, Hs.
    destruct c as [h | d | pos P d | pos d]; simpl; rewrite <- ?app_assoc; auto.
Qed.

(** X25. The system built by a sequence of mutation calls is the record of
    the ops the calls appended, in call order, of the elements they
    registered, in call order, and of the height given by the last
    [set_object_height] call (none when there was no such call); the stop
    marker is unset. *)
Theorem built_system_is_its_calls :
  forall calls : list mutation,
    built calls
    = mkSystem (ops_of calls) (elements_of calls)
               (last (map Some (heights_set calls)) None) None.
Proof.
  intros calls. unfold built.
  destruct (apply_mutations_fields calls init) as (Hm & He & Hs).
  pose proof (apply_mutations_height_last calls init) as Hh.
  destruct (snd (apply_mutations calls init)) as [ms es oh st].
  simpl in *. subst. reflexivity.
Qed.

Lemma blocked_app (a b : list element) (z y : R) :
  blocked (a ++ b) z y = blocked a z y || blocked b z y.
Proof.
  induction a as [|e a IH]; [reflexivity|].
  simpl. destruct (blocks e z y); [reflexivity | exact IH].
Qed.

Lemma blocked_Permutation (els els' : list element) (z y : R) :
  Permutation els els' -> blocked els z y = blocked els' z y.
Proof.
  induction 1 as [| e l l' _ IH | e e' l | l l' l'' _ IH1 _ IH2]; simpl.
  - reflexivity.
  - rewrite IH. reflexivity.
  - destruct (blocks e z y), (blocks e' z y); reflexivity.
  - congruence.
Qed.

Lemma trace_loop_same_checks (els els' : list element) (ms : list matrix_entry) :
  forall st,
    (forall z y, In z (positions (current_z st) (map entry_distance ms)) ->
                 blocked els z y = blocked els' z y) ->
    trace_loop els ms st = trace_loop els' ms st.
Proof.
  induction ms as [|[[kind mat] d] ms IH]; intros st Hsame; [reflexivity|].
  cbn [trace_loop].
  rewrite (Hsame (current_z (apply_op (kind, mat, d) st))) by (left; reflexivity).
  case_if; [reflexivity|].
  apply IH. intros z y Hz. apply Hsame. right. exact Hz.
Qed.

(** X26. [trace_ray] does not depend on the order in which the elements
    were registered: two systems with the same ops whose registries hold the
    same elements in a different order trace every ray alike. *)
Theorem trace_ray_registry_order :
  forall (ms : list matrix_entry) (els els' : list element) (oh oh' : option R)
         (stop stop' : option element) (w0 y0 : R),
    Permutation els els' ->
    trace_path (mkSystem ms els oh stop) w0 y0
    = trace_path (mkSystem ms els' oh' stop') w0 y0.
Proof.
  intros ms els els' oh oh' stop stop' w0 y0 Hperm.
  unfold trace_path, trace_final. cbn [matrices optical_elements].
  f_equal. apply trace_loop_same_checks.
  intros z y _. apply blocked_Permutation, Hperm.
Qed.

Lemma trace_ray_registry_order_witness :
  trace_path (mkSystem [(transfer, transfer_matrix 10, 10)]
                       [(iris, 10, 6); (lens, 10, 4)] None None) 0.3 0
  = trace_path (mkSystem [(transfer, transfer_matrix 10, 10)]
                         [(lens, 10, 4); (iris, 10, 6)] (Some 4) None) 0.3 0.
Proof.
  apply (trace_ray_registry_order [(transfer, transfer_matrix 10, 10)]
           [(iris, 10, 6); (lens, 10, 4)] [(lens, 10, 4); (iris, 10, 6)]
           None (Some 4) None None 0.3 0).
  apply perm_swap.
Defined.

(** X27. An element that is not within 1e-10 of a position where an op
    ends is never looked at: registering it changes no traced path.  This
    holds in particular for an aperture placed at the object plane or inside
    a stretch of free space. *)
Theorem element_off_the_sample_positions_ignored :
  forall (s : OpticalSystem) (e : element) (w0 y0 : R),
    (forall z, In z (positions 0 (distances s)) -> 1e-10 <= Rabs (elem_pos e - z)) ->
    trace_path (with_optical_elements (fun es => es ++ [e]) s) w0 y0
    = trace_path s w0 y0.
Proof.
  intros s e w0 y0 Hoff.
  unfold trace_path, trace_final, with_optical_elements.
  cbn [matrices optical_elements]. f_equal.
  apply trace_loop_same_checks. intros z y Hz.
  rewrite blocked_app. cbn [blocked].
  replace (blocks e z y) with false; [rewrite !orb_false_r; reflexivity|].
  symmetry. destruct e as [[k pos] d]. unfold blocks.
  replace (Rltb (Rabs (pos - z)) 1e-10) with false; [reflexivity|].
  symmetry. apply Rltb_false. apply (Hoff z Hz).
Qed.

Lemma element_off_the_sample_positions_ignored_witness :
  trace_path (with_optical_elements (fun es => es ++ [(iris, 5, 0.1)])
                                    (built [AddTransfer 10; AddTransfer 2])) 0.3 0
  = trace_path (built [AddTransfer 10; AddTransfer 2]) 0.3 0.
Proof.
  apply (element_off_the_sample_positions_ignored
           (built [AddTransfer 10; AddTransfer 2]) (iris, 5, 0.1) 0.3 0).
  intros z Hz. unfold distances, built in Hz; simpl in Hz.
  unfold elem_pos; simpl.
  destruct Hz as [<- | [<- | []]]; rsolve.
Defined.

Lemma find_marginal_rays_on_marker (s : OpticalSystem) (e : option element) (fuel : nat) :
  fst (find_marginal_rays fuel (with_STOP_optic e s)) = fst (find_marginal_rays fuel s).
Proof.
  assert (Hsame : forall k, passes (with_STOP_optic e s) k = passes s k)
    by reflexivity.
  destruct (passes_upto s fuel) as [Hall | (K & HK & Hf)].
  - rewrite (find_marginal_rays_running s (S fuel)) by (auto; intros; apply Hall; lia).
    rewrite (find_marginal_rays_running (with_STOP_optic e s) (S fuel));
      [reflexivity | | lia].
    intros j Hj. rewrite Hsame. apply Hall. lia.
  - destruct (first_failure s K) as (k0 & Hk0 & Hfail & Hpass); [lia | exact Hf |].
    rewrite (find_marginal_rays_returns s k0 fuel) by (auto; lia).
    rewrite (find_marginal_rays_returns (with_STOP_optic e s) k0 fuel);
      [reflexivity | lia | exact Hfail | exact Hpass | lia].
Qed.

Lemma find_image_position_on_marker (list_sort : list spread_sample -> list spread_sample)
      (s : OpticalSystem) (e : option element) (rays : list (R * R)) :
  fst (find_image_position list_sort rays (with_STOP_optic e s))
  = fst (find_image_position list_sort rays s).
Proof.
  destruct (object_height s) as [H|] eqn:Hoh.
  - rewrite (find_image_position_run list_sort s H rays Hoh).
    rewrite (find_image_position_run list_sort (with_STOP_optic e s) H rays Hoh).
    reflexivity.
  - unfold find_image_position, bind, gets. cbn [object_height with_STOP_optic].
    rewrite Hoh. reflexivity.
Qed.

(** X28. No method of [OpticalSystem] reads the stop marker: whatever it
    holds, [trace_ray], [find_image_position] and [find_marginal_rays] return
    the same value.  In particular the image found after a marginal-ray
    search, as [main] runs them, is the image found without that search. *)
Theorem stop_marker_never_read :
  forall (s : OpticalSystem) (e : option element),
    (forall w0 y0, fst (trace_ray w0 y0 (with_STOP_optic e s)) = fst (trace_ray w0 y0 s)) /\
    (forall list_sort rays,
        fst (find_image_position list_sort rays (with_STOP_optic e s))
        = fst (find_image_position list_sort rays s)) /\
    (forall fuel, fst (find_marginal_rays fuel (with_STOP_optic e s))
                  = fst (find_marginal_rays fuel s)) /\
    (forall list_sort fuel rays,
        fst (find_image_position list_sort rays (snd (find_marginal_rays fuel s)))
        = fst (find_image_position list_sort rays s)).
Proof.
  intros s e. split; [reflexivity|].
  split; [intros list_sort rays; apply find_image_position_on_marker|].
  split; [intros fuel; apply find_marginal_rays_on_marker|].
  intros list_sort fuel rays. unfold find_marginal_rays.
  destruct (marginal_loop_frame s fuel (mkSearch angle_step None))
    as [-> | (a & _ & ->)]; [reflexivity|].
  unfold after_failure.
  destruct (length _ <? 2)%nat; [reflexivity|].
  destruct (find_stop _ _); [apply find_image_position_on_marker | reflexivity].
Qed.
